(** * rklab: Rabin-Karp chunk matching and its Bloom filter

    A shallow embedding of [rklab/rkmatch.c] and [rklab/bloom.c] and the
    properties of the design document that can be stated over it.

    Conventions of the embedding.
    - [long long] values are integers of [Z]; every arithmetic operation
      of the source on them is followed by [wrap64], the two's-complement
      wrap-around of a 64-bit signed integer.  The [int] arithmetic of
      [hash_i] and of the filter size in [main] is wrapped by [wrap32].
      The operator [%] of C truncates towards zero: it is [Z.rem].
    - [int] variables that hold array lengths, indices and counters are
      integers of [Z] as well; their arithmetic is not wrapped, it stays
      far inside the range of [int] for buffers that were read from a
      file.
    - An [unsigned char] array is a [list ascii]; the list is the whole
      allocation.  A read or a store outside the list is undefined
      behaviour in C; here it stops the run with [Err (OutOfBounds i)].
    - A loop whose trip count is known on entry is a [Fixpoint] on the
      number of iterations left; the other loops take [fuel] and stop with
      [Err OutOfFuel] when it is used up.
    - The global [BIG_PRIME] can be overwritten by the [-q] flag before any
      matcher runs; the functions that read it take it as their first
      argument [P].
    - [printf] appends an [event] to an output trace. *)

From Stdlib Require Import ZArith Lia Ascii String List.
From stdpp Require Import base option list.

Local Open Scope Z_scope.

(** ** Machine integers *)

Definition wrap64 (z : Z) : Z := (z + 2 ^ 63) mod 2 ^ 64 - 2 ^ 63.
Definition wrap32 (z : Z) : Z := (z + 2 ^ 31) mod 2 ^ 32 - 2 ^ 31.

(** ** Runs that stop early *)

Inductive error : Type :=
| OutOfBounds (i : Z)   (* an access at index [i] outside the array *)
| DivByZero             (* [/] or [%] by zero *)
| AssertFailed          (* [assert] *)
| OutOfFuel.

Inductive result (A : Type) : Type :=
| Ok (a : A)
| Err (e : error).

Arguments Ok {A} a.
Arguments Err {A} e.

#[export] Instance result_ret : MRet result := fun A a => Ok a.
#[export] Instance result_bind : MBind result := fun A B f m =>
  match m with
  | Ok a => f a
  | Err e => Err e
  end.
#[export] Instance result_fmap : FMap result := fun A B f m =>
  match m with
  | Ok a => Ok (f a)
  | Err e => Err e
  end.

(** ** Byte buffers *)

Definition buffer : Type := list ascii.

(** The value of an [unsigned char], promoted to an integer. *)
Definition u8 (c : ascii) : Z := Z.of_N (N_of_ascii c).

(** The [unsigned char] of an integer in [0, 256). *)
Definition chr (z : Z) : ascii := ascii_of_N (Z.to_N z).

Definition bytes (s : string) : buffer := list_ascii_of_string s.

(** [buf[i]] as an rvalue. *)
Definition read (buf : buffer) (i : Z) : result Z :=
  if i <? 0 then Err (OutOfBounds i)
  else match buf !! Z.to_nat i with
       | Some c => Ok (u8 c)
       | None => Err (OutOfBounds i)
       end.

(** [buf[i] = c]. *)
Definition store (buf : buffer) (i : Z) (c : ascii) : result buffer :=
  if (0 <=? i) && (i <? Z.of_nat (length buf))
  then Ok (<[Z.to_nat i := c]> buf)
  else Err (OutOfBounds i).

(** [buf + i]: the array that starts [i] bytes into [buf]. *)
Definition offset (buf : buffer) (i : Z) : result buffer :=
  if (0 <=? i) && (i <=? Z.of_nat (length buf))
  then Ok (drop (Z.to_nat i) buf)
  else Err (OutOfBounds i).

(** ** Output *)

Inductive event : Type :=
| OutHashLn (h : Z)            (* [printf("%llu\n", h)] *)
| OutHashSp (h : Z)            (* [printf("%llu ", h)] *)
| OutNewline                   (* [printf("\n")] *)
| OutExact (matched : bool)    (* ["Exact match\n"], ["Not an exact match\n"] *)
| OutStat (matched total : Z)  (* ["%d chunks matched (out of %d), percentage: %.2f\n"] *)
| ErrWrongAlgo.                (* ["Wrong algorithm type, choose from 0 1 2 3\n"] on stderr *)

(** ** rkmatch.c: modular helpers *)

(** [long long BIG_PRIME = 5003943032159437;] *)
Definition BIG_PRIME : Z := 5003943032159437.

(** [const int PRINT_RK_HASH = 5;] *)
Definition PRINT_RK_HASH : Z := 5.

(** [return ((a+b)>BIG_PRIME?(a+b-BIG_PRIME):(a+b));] *)
Definition madd (P a b : Z) : Z :=
  if wrap64 (a + b) >? P then wrap64 (wrap64 (a + b) - P) else wrap64 (a + b).

(** [return ((a>b)?(a-b):(a+BIG_PRIME-b));] *)
Definition mdel (P a b : Z) : Z :=
  if a >? b then wrap64 (a - b) else wrap64 (wrap64 (a + P) - b).

(** [return ((a*b) % BIG_PRIME);]  With [BIG_PRIME] zero the C program
    traps here; [rabin_karp_match] below stops with [Err DivByZero]
    exactly when it would reach this line with a zero modulus. *)
Definition mmul (P a b : Z) : Z := Z.rem (wrap64 (a * b)) P.

(** ** rkmatch.c: the rolling hash of [rabin_karp_match] *)

(** [long long base = 256;] *)
Definition base : Z := 256.

(** The loop [for (i = 0; i < k - 1; i++) base_exp = mmul(base, base_exp);]
    started from [base_exp = 1]. *)
Definition base_exp (P k : Z) : Z :=
  Nat.iter (Z.to_nat (k - 1)) (fun e => mmul P base e) 1.

(** One round of Horner's method, the right-hand side of
    [h = madd(mmul(base, h), b)]. *)
Definition hash_step (P h b : Z) : Z := madd P (mmul P base h) b.

(** The loop that creates the initial hashes, with [cnt] iterations left:
    [for (i = 0; i < k; i++) {
       ps_hash = madd(mmul(base, ps_hash), ps[i]);
       ts_hash = madd(mmul(base, ts_hash), ts[i]); }] *)
Fixpoint init_loop (P : Z) (ps ts : buffer) (cnt : nat) (i : Z)
    (ps_hash ts_hash : Z) : result (Z * Z) :=
  match cnt with
  | O => Ok (ps_hash, ts_hash)
  | S cnt' =>
      p ← read ps i;
      t ← read ts i;
      init_loop P ps ts cnt' (i + 1) (hash_step P ps_hash p) (hash_step P ts_hash t)
  end.

Definition init_hashes (P : Z) (ps : buffer) (k : Z) (ts : buffer) : result (Z * Z) :=
  init_loop P ps ts (Z.to_nat k) 0 0 0.

(** The hash of the [k]-byte window at the start of [buf], from scratch:
    the value the initial loop leaves in [ts_hash] (and, the two lines of
    its body being the same, in [ps_hash]). *)
Definition hash_window (P : Z) (buf : buffer) (k : Z) : result Z :=
  snd <$> init_hashes P buf k buf.

(** [while (ts_hash < 0) ts_hash = ts_hash + BIG_PRIME;] *)
Fixpoint keep_positive (fuel : nat) (P h : Z) : result Z :=
  if h <? 0 then
    match fuel with
    | O => Err OutOfFuel
    | S fuel' => keep_positive fuel' P (wrap64 (h + P))
    end
  else Ok h.

(** The rolling update, the [else] branch of the scan at position [i]:
    [ts_hash = mmul(base, mdel(ts_hash, mmul(ts[i], base_exp)));
     ts_hash = madd(ts_hash, ts[i + k]);
     while (ts_hash < 0) ...] *)
Definition roll (fuel : nat) (P e : Z) (ts : buffer) (k i ts_hash : Z) : result Z :=
  outgoing ← read ts i;
  let h := mmul P base (mdel P ts_hash (mmul P outgoing e)) in
  incoming ← read ts (i + k);
  keep_positive fuel P (madd P h incoming).

(** The hash of the window at position [i] as the scan obtains it when it
    rolls at every position before [i]: the initial hash at position 0,
    then one [roll] per position. *)
Fixpoint rolled_hash (fuel : nat) (P : Z) (ts : buffer) (k : Z) (i : nat) : result Z :=
  match i with
  | O => hash_window P ts k
  | S i' =>
      h ← rolled_hash fuel P ts k i';
      roll fuel P (base_exp P k) ts k (Z.of_nat i') h
  end.

(** ** rkmatch.c: [rabin_karp_match] *)

(** [for (j = 0; j < k; j++) if (ts[i + j] != ps[j]) break;]
    with [cnt] iterations left; the result is [j] on exit. *)
Fixpoint verify_loop (ps ts : buffer) (i : Z) (cnt : nat) (j : Z) : result Z :=
  match cnt with
  | O => Ok j
  | S cnt' =>
      t ← read ts (i + j);
      p ← read ps j;
      if t =? p then verify_loop ps ts i cnt' (j + 1) else Ok j
  end.

Record scan_state : Type := ScanState {
  printed : Z;
  response : Z;
  ts_hash : Z;
  output : list event
}.

(** The lines that print the first [PRINT_RK_HASH] hashes of [ts]. *)
Definition print_hash (st : scan_state) : scan_state :=
  if printed st <? PRINT_RK_HASH then
    ScanState (printed st + 1) (response st) (ts_hash st)
              (output st ++ [OutHashSp (ts_hash st)])
  else if printed st =? PRINT_RK_HASH then
    ScanState (printed st + 1) (response st) (ts_hash st)
              (output st ++ [OutNewline])
  else st.

(** The body of [for (i=printed=0; i < n - k; i++)]. *)
Definition scan_body (fuel : nat) (P : Z) (ps : buffer) (k : Z) (ts : buffer)
    (ps_hash e i : Z) (st0 : scan_state) : result scan_state :=
  let st := print_hash st0 in
  if ts_hash st =? ps_hash then
    j ← verify_loop ps ts i (Z.to_nat k) 0;
    Ok (if j =? k
        then ScanState (printed st) 1 (ts_hash st) (output st)
        else st)
  else
    h ← roll fuel P e ts k i (ts_hash st);
    Ok (ScanState (printed st) (response st) h (output st)).

Fixpoint scan_loop (fuel : nat) (P : Z) (ps : buffer) (k : Z) (ts : buffer)
    (ps_hash e : Z) (cnt : nat) (i : Z) (st : scan_state) : result scan_state :=
  match cnt with
  | O => Ok st
  | S cnt' =>
      st' ← scan_body fuel P ps k ts ps_hash e i st;
      scan_loop fuel P ps k ts ps_hash e cnt' (i + 1) st'
  end.

(** [int rabin_karp_match(ps, k, ts, n)]: the value returned and what was
    printed.  [mmul] is called in the first round of the initial loop when
    [k >= 1], and never when [k < 1]: both hashes are then 0 and stay
    equal, so that the scan never rolls. *)
Definition rabin_karp_match (fuel : nat) (P : Z) (ps : buffer) (k : Z)
    (ts : buffer) (n : Z) : result (Z * list event) :=
  if (P =? 0) && (1 <=? k) then Err DivByZero else
  let e := base_exp P k in
  hs ← init_hashes P ps k ts;
  st ← scan_loop fuel P ps k ts (fst hs) e (Z.to_nat (n - k)) 0
         (ScanState 0 0 (snd hs) [OutHashLn (fst hs)]);
  Ok (response st, output st).

(** ** rkmatch.c: [simple_substr_match] *)

(** The inner loop at position [i], with [cnt] iterations left:
    [for (j=0; j < k; j++) {
       if (ts[i+j] == ps[j]) { if ((j+1) == k) return 1; } else break; }]
    The result is [true] when the function returns 1 from inside the loop. *)
Fixpoint substr_inner (ps : buffer) (k : Z) (ts : buffer) (i : Z)
    (cnt : nat) (j : Z) : result bool :=
  match cnt with
  | O => Ok false
  | S cnt' =>
      t ← read ts (i + j);
      p ← read ps j;
      if t =? p then
        if j + 1 =? k then Ok true
        else substr_inner ps k ts i cnt' (j + 1)
      else Ok false
  end.

(** [for (i=0; i < n; i++) ...] with [cnt] iterations left, then [return 0]. *)
Fixpoint substr_outer (ps : buffer) (k : Z) (ts : buffer)
    (cnt : nat) (i : Z) : result Z :=
  match cnt with
  | O => Ok 0
  | S cnt' =>
      found ← substr_inner ps k ts i (Z.to_nat k) 0;
      if found : bool then Ok 1 else substr_outer ps k ts cnt' (i + 1)
  end.

Definition simple_substr_match (ps : buffer) (k : Z) (ts : buffer) (n : Z) : result Z :=
  substr_outer ps k ts (Z.to_nat n) 0.

(** ** rkmatch.c: [exact_match] *)

(** [for (i=0; qs[i]; i++) if (qs[i] != ts[i]) return 0;] then [return 1].
    [rest] is what is left of [qs] from index [i] on: the loop ends at the
    first zero byte of [qs], or reads past the array. *)
Fixpoint exact_loop (rest : list ascii) (ts : buffer) (i : Z) : result Z :=
  match rest with
  | [] => Err (OutOfBounds i)
  | q :: rest' =>
      if u8 q =? 0 then Ok 1
      else
        t ← read ts i;
        if u8 q =? t then exact_loop rest' ts (i + 1) else Ok 0
  end.

Definition exact_match (qs : buffer) (m : Z) (ts : buffer) (n : Z) : result Z :=
  if m =? n then exact_loop qs ts 0 else Ok 0.

(** ** rkmatch.c: [normalize] *)

(** [isupper], [isspace] and [tolower] of the C locale. *)
Definition isupper (c : Z) : bool := (65 <=? c) && (c <=? 90).
Definition isspace (c : Z) : bool := (c =? 32) || ((9 <=? c) && (c <=? 13)).
Definition tolower (c : Z) : Z := if isupper c then c + 32 else c.

(** The loop [for (i=j=0; i < len; i++)] with [cnt] iterations left.  The
    array is rewritten in place: [buf[i-1]] is read from the array as the
    stores before it have left it. *)
Fixpoint normalize_loop (len : Z) (cnt : nat) (i j : Z) (buf : buffer)
    : result (buffer * Z) :=
  match cnt with
  | O => Ok (buf, j)
  | S cnt' =>
      c ← read buf i;
      if isupper c then
        buf' ← store buf j (chr (tolower c));
        normalize_loop len cnt' (i + 1) (j + 1) buf'
      else if isspace c then
        if (0 <? i) && (i <? len - 1) then
          prev ← read buf (i - 1);
          if negb (isspace prev) then
            buf' ← store buf j (chr 32);
            normalize_loop len cnt' (i + 1) (j + 1) buf'
          else normalize_loop len cnt' (i + 1) j buf
        else normalize_loop len cnt' (i + 1) j buf
      else
        buf' ← store buf j (chr c);
        normalize_loop len cnt' (i + 1) (j + 1) buf'
  end.

(** [int normalize(buf, len)]: the array after the call, and the length
    returned.  The last store is [buf[j] = 0]. *)
Definition normalize (buf : buffer) (len : Z) : result (buffer * Z) :=
  r ← normalize_loop len (Z.to_nat len) 0 0 buf;
  buf' ← store (fst r) (snd r) (chr 0);
  Ok (buf', snd r).

(** ** bloom.c *)

Definition H1PRIME : Z := 4189793.
Definition H2PRIME : Z := 3296731.
Definition BLOOM_HASH_NUM : Z := 10.

(** [int hash_i(int i, long long x)]:
    [return ((x % H1PRIME) + i*(x % H2PRIME) + 1 + i*i);]
    The sum is a [long long], but for [i*i], a product of two [int]; the
    value returned is converted to [int]. *)
Definition hash_i (i x : Z) : Z :=
  wrap32
    (wrap64
       (wrap64 (wrap64 (Z.rem x H1PRIME + wrap64 (i * Z.rem x H2PRIME)) + 1)
        + wrap32 (i * i))).

(** The type [bloom_filter] is declared in [bloom.h], which is not part of
    the sources at hand.  [bloom.c] uses two fields of it: [f.bsz], the
    size in bits, and [f.buf], a pointer to the bytes that hold the bits.
    [buf] is [None] while the pointer has not been set. *)
Record bloom_filter : Type := BloomFilter {
  bsz : Z;
  buf : option buffer
}.

(** [bloom_init(bsz)]: [assert((bsz % 8) == 0); f.bsz = bsz; return f;]
    No array is allocated. *)
Definition bloom_init (size : Z) : result bloom_filter :=
  if Z.rem size 8 =? 0 then Ok (BloomFilter size None) else Err AssertFailed.

(** [void bloom_add(bloom_filter f, long long elm)]: the body is empty.
    The filter is passed by value; the model returns the filter as the
    caller finds it after the call. *)
Definition bloom_add (f : bloom_filter) (elm : Z) : bloom_filter := f.

(** [int bloom_query(bloom_filter f, long long elm)]: [return 0;] *)
Definition bloom_query (f : bloom_filter) (elm : Z) : Z := 0.

(** ** rkmatch.c: [rabin_karp_batchmatch] and [main] *)

(** [int rabin_karp_batchmatch(bsz, k, qs, m, ts, n)]: [return 0;] *)
Definition rabin_karp_batchmatch (size k : Z) (qs : buffer) (m : Z)
    (ts : buffer) (n : Z) : Z := 0.

(** The loop over the chunks of the query, the same for [SIMPLE] and [RK]
    but for the matcher [mtch] it calls:
    [for (i = 0; (i+k) <= qdoc_len; i += k)
       if (mtch(qdoc+i, k, doc, doc_len)) num_matched++;] *)
Fixpoint chunk_loop (mtch : buffer -> result (Z * list event)) (fuel : nat)
    (k : Z) (qdoc : buffer) (qdoc_len : Z) (i num_matched : Z)
    (out : list event) : result (Z * list event) :=
  match fuel with
  | O => Err OutOfFuel
  | S fuel' =>
      if i + k <=? qdoc_len then
        ps ← offset qdoc i;
        r ← mtch ps;
        chunk_loop mtch fuel' k qdoc qdoc_len (i + k)
          (if fst r =? 0 then num_matched else num_matched + 1)
          (out ++ snd r)
      else Ok (num_matched, out)
  end.

(** [printf("%d chunks matched (out of %d), percentage: %.2f\n", ...)]
    with its integer division [qdoc_len/k]. *)
Definition print_stat (num_matched qdoc_len k : Z) (out : list event)
    : result (Z * list event) :=
  if k =? 0 then Err DivByZero
  else Ok (0, out ++ [OutStat num_matched (Z.quot qdoc_len k)]).

(** [main] once the options are parsed: [which_algo] and [k] are the
    values of [-t] and [-k], [P] is [BIG_PRIME] as [-q] left it, [qfile]
    and [dfile] are the contents of the two files.  The result is the exit
    status and the output. *)
Definition main (fuel : nat) (which_algo k P : Z) (qfile dfile : buffer)
    : result (Z * list event) :=
  q ← normalize qfile (Z.of_nat (length qfile));
  d ← normalize dfile (Z.of_nat (length dfile));
  let qdoc := fst q in let qdoc_len := snd q in
  let doc := fst d in let doc_len := snd d in
  match which_algo with
  | 0 =>
      r ← exact_match qdoc qdoc_len doc doc_len;
      Ok (0, [OutExact (negb (r =? 0))])
  | 1 =>
      r ← chunk_loop
            (fun ps => m ← simple_substr_match ps k doc doc_len; Ok (m, []))
            fuel k qdoc qdoc_len 0 0 [];
      print_stat (fst r) qdoc_len k (snd r)
  | 2 =>
      r ← chunk_loop (fun ps => rabin_karp_match fuel P ps k doc doc_len)
            fuel k qdoc qdoc_len 0 0 [];
      print_stat (fst r) qdoc_len k (snd r)
  | 3 =>
      if k =? 0 then Err DivByZero
      else
        let size :=
          wrap32 (Z.shiftl (Z.shiftr (Z.quot (wrap32 (qdoc_len * 10)) k) 3) 3) in
        print_stat (rabin_karp_batchmatch size k qdoc qdoc_len doc doc_len)
                   qdoc_len k []
  | _ => Ok (1, [ErrWrongAlgo])
  end.

(** ** Reference definitions for the rolling hash *)

(** The largest value a hash takes: the comparison of [madd] is strict,
    so that the modulus itself is a possible value. *)
Definition hash_max (P : Z) : Z := Z.max P 254.

(** Horner's method over a list of bytes, as [hash_step] does it, and the
    polynomial it evaluates. *)
Definition horner (P : Z) (h0 : Z) (l : list ascii) : Z :=
  fold_left (hash_step P) (map u8 l) h0.

Definition poly (g0 : Z) (l : list ascii) : Z :=
  fold_left (fun g b => 256 * g + b) (map u8 l) g0.


(** ** Reference definition for the matchers *)

(** The [k] bytes of [ps] are the bytes of [ts] from index [i] on. *)
Definition occurs_at (ps : buffer) (k : Z) (ts : buffer) (i : Z) : Prop :=
  forall x, 0 <= x < k ->
            exists v, read ts (i + x) = Ok v /\ read ps x = Ok v.


(** ** Reference definition for [normalize] *)

(** What [normalize] writes for the bytes [l] of the input that start at
    index [i], out of place: one case per branch of the loop body.
    [prev_space] tells whether the input byte at [i - 1] is whitespace. *)
Fixpoint normalized (len i : Z) (prev_space : bool) (l : list ascii) : list ascii :=
  match l with
  | [] => []
  | c :: l' =>
      if isupper (u8 c) then
        chr (tolower (u8 c)) :: normalized len (i + 1) false l'
      else if isspace (u8 c) then
        if (0 <? i) && (i <? len - 1) && negb prev_space
        then chr 32 :: normalized len (i + 1) true l'
        else normalized len (i + 1) true l'
      else c :: normalized len (i + 1) false l'
  end.

(** ** rkmatch.c: [timediff] *)

(** [struct timespec], with [time_t] and [long] of 64 bits. *)
Record timespec : Type := Timespec {
  tv_sec : Z;
  tv_nsec : Z
}.

(** [return (ts.tv_sec-ts0.tv_sec)*1000000+(ts.tv_nsec-ts0.tv_nsec)/1000;]
    The division of C truncates towards zero: it is [Z.quot]. *)
Definition timediff (ts ts0 : timespec) : Z :=
  wrap64 (wrap64 (wrap64 (tv_sec ts - tv_sec ts0) * 1000000)
          + Z.quot (wrap64 (tv_nsec ts - tv_nsec ts0)) 1000).

(** ** bloom.c: [bloom_print] *)

(** The loop [for(i=0; i< (f.bsz>>3) && i < (count>>3); i++)
    printf("%02x ", (unsigned char)(f.buf[i]));] with [cnt] iterations
    left; the result lists the bytes printed, in order.  A filter whose
    [buf] was never set has no byte to read. *)
Fixpoint print_bytes (b : option buffer) (cnt : nat) (i : Z) : result (list Z) :=
  match cnt with
  | O => Ok []
  | S cnt' =>
      v ← match b with
          | Some bs => read bs i
          | None => Err (OutOfBounds i)
          end;
      rest ← print_bytes b cnt' (i + 1);
      Ok (v :: rest)
  end.

(** [void bloom_print(bloom_filter f, int count)]:
    [assert(count % 8 == 0);], the loop, then a newline. *)
Definition bloom_print (f : bloom_filter) (count : Z) : result (list Z) :=
  if Z.rem count 8 =? 0
  then print_bytes (buf f)
         (Z.to_nat (Z.min (Z.shiftr (bsz f) 3) (Z.shiftr count 3))) 0
  else Err AssertFailed.

(** * Properties *)

(** ** Machine arithmetic in range *)

Lemma wrap64_small (z : Z) : - 2 ^ 63 <= z < 2 ^ 63 -> wrap64 z = z.
Proof. intros Hz. unfold wrap64. rewrite Z.mod_small; lia. Qed.

Lemma u8_range (c : ascii) : 0 <= u8 c < 256.
Proof.
  unfold u8. pose proof (N_ascii_bounded c) as Hc.
  split; [apply N2Z.is_nonneg | ].
  change 256 with (Z.of_N 256). now apply N2Z.inj_lt.
Qed.

Lemma read_lookup (buf : buffer) (i : nat) (c : ascii) :
  buf !! i = Some c -> read buf (Z.of_nat i) = Ok (u8 c).
Proof.
  intros Hc. unfold read.
  destruct (Z.ltb_spec (Z.of_nat i) 0) as [Hneg | _]; [lia | ].
  now rewrite Nat2Z.id, Hc.
Qed.

Lemma keep_positive_nonneg (fuel : nat) (P h : Z) :
  0 <= h -> keep_positive fuel P h = Ok h.
Proof.
  intros Hh. destruct fuel; simpl;
    destruct (Z.ltb_spec h 0); (lia || reflexivity).
Qed.

Lemma print_hash_ts_hash (st : scan_state) : ts_hash (print_hash st) = ts_hash st.
Proof.
  unfold print_hash.
  destruct (printed st <? PRINT_RK_HASH); [reflexivity | ].
  destruct (printed st =? PRINT_RK_HASH); reflexivity.
Qed.

Lemma print_hash_response (st : scan_state) : response (print_hash st) = response st.
Proof.
  unfold print_hash.
  destruct (printed st <? PRINT_RK_HASH); [reflexivity | ].
  destruct (printed st =? PRINT_RK_HASH); reflexivity.
Qed.

(** ** The rolling hash under a modulus that fits

    [P] is the modulus; the source asks that [BIG_PRIME*256 does not
    overflow].  Hash values stay in [0, hash_max]: the comparison of
    [madd] is strict, so that [P] itself is a possible value. *)

Section RollingHash.

Variable P : Z.
Hypothesis P_pos : 0 < P.
Hypothesis P_fits : 256 * P < 2 ^ 63.

Lemma mmul_mod (a b : Z) :
  0 <= a -> 0 <= b -> a * b < 2 ^ 63 -> mmul P a b = (a * b) mod P.
Proof.
  intros Ha Hb Hab. unfold mmul.
  rewrite wrap64_small by nia.
  apply Z.rem_mod_nonneg; nia.
Qed.

Lemma madd_range (x b : Z) :
  0 <= x < P -> 0 <= b < 256 -> 0 <= madd P x b <= hash_max P.
Proof.
  intros Hx Hb. unfold madd, hash_max.
  rewrite !(wrap64_small (x + b)) by lia.
  destruct (Z.gtb_spec (x + b) P); [rewrite wrap64_small by lia | ]; lia.
Qed.

Lemma madd_mod (x b : Z) :
  0 <= x < P -> 0 <= b < 256 -> madd P x b mod P = (x + b) mod P.
Proof.
  intros Hx Hb. unfold madd.
  rewrite !(wrap64_small (x + b)) by lia.
  destruct (Z.gtb_spec (x + b) P); [ | reflexivity].
  rewrite wrap64_small by lia.
  replace (x + b - P) with (x + b + (-1) * P) by ring.
  apply Z.mod_add; lia.
Qed.

Lemma mdel_range (a b : Z) :
  0 <= a <= hash_max P -> 0 <= b < P -> 0 <= mdel P a b <= hash_max P.
Proof.
  unfold hash_max. intros Ha Hb. unfold mdel.
  destruct (Z.gtb_spec a b).
  - rewrite wrap64_small by lia. lia.
  - rewrite (wrap64_small (a + P)) by lia. rewrite wrap64_small by lia. lia.
Qed.

Lemma mdel_mod (a b : Z) :
  0 <= a <= hash_max P -> 0 <= b < P -> mdel P a b mod P = (a - b) mod P.
Proof.
  unfold hash_max. intros Ha Hb. unfold mdel.
  destruct (Z.gtb_spec a b).
  - now rewrite wrap64_small by lia.
  - rewrite (wrap64_small (a + P)) by lia. rewrite wrap64_small by lia.
    replace (a + P - b) with (a - b + 1 * P) by ring.
    apply Z.mod_add; lia.
Qed.

(** What the helpers do guarantee on operands in [0, P): a result in
    [0, P], the modulus included, of the right residue. *)
Lemma madd_upto_modulus (a b : Z) :
  0 <= a < P -> 0 <= b < P ->
  0 <= madd P a b <= P /\ madd P a b mod P = (a + b) mod P.
Proof.
  intros Ha Hb. unfold madd.
  rewrite !(wrap64_small (a + b)) by lia.
  destruct (Z.gtb_spec (a + b) P); [rewrite wrap64_small by lia | ].
  - split; [lia | ].
    replace (a + b - P) with (a + b + (-1) * P) by ring.
    apply Z.mod_add; lia.
  - split; [lia | reflexivity].
Qed.

Lemma mdel_upto_modulus (a b : Z) :
  0 <= a < P -> 0 <= b < P ->
  0 < mdel P a b <= P /\ mdel P a b mod P = (a - b) mod P.
Proof.
  intros Ha Hb. unfold mdel.
  destruct (Z.gtb_spec a b).
  - rewrite wrap64_small by lia. split; [lia | reflexivity].
  - rewrite (wrap64_small (a + P)) by lia. rewrite wrap64_small by lia.
    split; [lia | ].
    replace (a + P - b) with (a - b + 1 * P) by ring.
    apply Z.mod_add; lia.
Qed.

Lemma hash_step_eq (h b : Z) :
  0 <= h <= hash_max P -> hash_step P h b = madd P ((256 * h) mod P) b.
Proof.
  unfold hash_max. intros Hh. unfold hash_step, base.
  rewrite mmul_mod by lia. reflexivity.
Qed.

Lemma hash_step_range (h b : Z) :
  0 <= h <= hash_max P -> 0 <= b < 256 -> 0 <= hash_step P h b <= hash_max P.
Proof.
  intros Hh Hb. rewrite hash_step_eq by assumption.
  apply madd_range; [apply Z.mod_pos_bound | ]; assumption.
Qed.

Lemma hash_step_mod (h b : Z) :
  0 <= h <= hash_max P -> 0 <= b < 256 ->
  hash_step P h b mod P = (256 * h + b) mod P.
Proof.
  intros Hh Hb. rewrite hash_step_eq by assumption.
  rewrite madd_mod by (try apply Z.mod_pos_bound; assumption).
  apply Zplus_mod_idemp_l.
Qed.

(** The next hash depends on the current one through its residue only. *)
Lemma hash_step_congr (h h' b : Z) :
  0 <= h <= hash_max P -> 0 <= h' <= hash_max P -> h mod P = h' mod P ->
  hash_step P h b = hash_step P h' b.
Proof.
  intros Hh Hh' Heq. rewrite !hash_step_eq by assumption.
  rewrite <- (Zmult_mod_idemp_r h), <- (Zmult_mod_idemp_r h'), Heq.
  reflexivity.
Qed.

Lemma horner_range (l : list ascii) (h0 : Z) :
  0 <= h0 <= hash_max P -> 0 <= horner P h0 l <= hash_max P.
Proof.
  revert h0. induction l as [ | c l IH]; intros h0 Hh0; [exact Hh0 | ].
  apply IH, hash_step_range; [assumption | apply u8_range].
Qed.

Lemma horner_mod (l : list ascii) (h0 g0 : Z) :
  0 <= h0 <= hash_max P -> h0 mod P = g0 mod P ->
  horner P h0 l mod P = poly g0 l mod P.
Proof.
  revert h0 g0. induction l as [ | c l IH]; intros h0 g0 Hh0 Heq; [exact Heq | ].
  apply IH.
  - apply hash_step_range; [assumption | apply u8_range].
  - rewrite hash_step_mod by (assumption || apply u8_range).
    rewrite <- Zplus_mod_idemp_l, <- Zmult_mod_idemp_r, Heq.
    rewrite Zmult_mod_idemp_r, Zplus_mod_idemp_l. reflexivity.
Qed.

Lemma poly_shift (l : list ascii) (g0 : Z) :
  poly g0 l = g0 * 256 ^ Z.of_nat (length l) + poly 0 l.
Proof.
  revert g0. induction l as [ | c l IH]; intros g0.
  - unfold poly. cbn [map fold_left length].
    change (Z.of_nat 0) with 0. rewrite Z.pow_0_r. lia.
  - change (poly g0 (c :: l)) with (poly (256 * g0 + u8 c) l).
    change (poly 0 (c :: l)) with (poly (256 * 0 + u8 c) l).
    rewrite (IH (256 * g0 + u8 c)), (IH (256 * 0 + u8 c)).
    change (length (c :: l)) with (S (length l)).
    rewrite Nat2Z.inj_succ, Z.pow_succ_r by lia. ring.
Qed.

Lemma base_exp_spec (m : nat) :
  0 <= base_exp P (Z.of_nat (S m)) <= hash_max P /\
  base_exp P (Z.of_nat (S m)) mod P = 256 ^ Z.of_nat m mod P.
Proof.
  unfold base_exp, hash_max.
  replace (Z.to_nat (Z.of_nat (S m) - 1)) with m by lia.
  induction m as [ | m [IHr IHm]].
  - simpl. split; [lia | reflexivity].
  - change (Nat.iter (S m) (fun e => mmul P base e) 1)
      with (mmul P base (Nat.iter m (fun e => mmul P base e) 1)).
    set (e := Nat.iter m (fun e => mmul P base e) 1) in *.
    assert (mmul P base e = (256 * e) mod P) as ->
      by (unfold base; apply mmul_mod; lia).
    pose proof (Z.mod_pos_bound (256 * e) P P_pos).
    split; [lia | ].
    rewrite Z.mod_mod by lia.
    rewrite Nat2Z.inj_succ, Z.pow_succ_r by lia.
    rewrite <- Zmult_mod_idemp_r, IHm, Zmult_mod_idemp_r. reflexivity.
Qed.

(** One rolling update of the hash of [a :: mid] is the hash of
    [mid ++ [c]] from scratch. *)
Lemma roll_value (a c : ascii) (mid : list ascii) :
  madd P (mmul P base
            (mdel P (horner P 0 (a :: mid))
                    (mmul P (u8 a) (base_exp P (Z.of_nat (S (length mid)))))))
         (u8 c)
  = horner P 0 (mid ++ [c]).
Proof.
  destruct (base_exp_spec (length mid)) as [He Hem].
  set (e := base_exp P (Z.of_nat (S (length mid)))) in *.
  pose proof (u8_range a) as Ha. pose proof (u8_range c) as Hc.
  assert (H0 : 0 <= 0 <= hash_max P) by (unfold hash_max; lia).
  assert (Hh : 0 <= horner P 0 (a :: mid) <= hash_max P)
    by (apply horner_range; exact H0).
  assert (Hm : mmul P (u8 a) e = (u8 a * e) mod P).
  { apply mmul_mod; [lia | lia | ].
    unfold hash_max in He. assert (u8 a * e <= 255 * e) by nia. lia. }
  pose proof (Z.mod_pos_bound (u8 a * e) P P_pos) as Hb.
  rewrite Hm.
  set (d := mdel P (horner P 0 (a :: mid)) ((u8 a * e) mod P)).
  assert (Hd : 0 <= d <= hash_max P) by (apply mdel_range; assumption).
  change (madd P (mmul P base d) (u8 c)) with (hash_step P d (u8 c)).
  unfold horner at 1. rewrite map_app, fold_left_app.
  change (fold_left (hash_step P) (map u8 mid) 0) with (horner P 0 mid).
  cbn [map fold_left].
  apply hash_step_congr; [exact Hd | apply horner_range; exact H0 | ].
  subst d. rewrite mdel_mod by assumption.
  rewrite Zminus_mod_idemp_r, Zminus_mod.
  rewrite (horner_mod (a :: mid) 0 0), (horner_mod mid 0 0) by (exact H0 || reflexivity).
  change (poly 0 (a :: mid)) with (poly (u8 a) mid).
  rewrite poly_shift.
  rewrite <- (Zmult_mod_idemp_r e), Hem, Zmult_mod_idemp_r.
  rewrite <- Zminus_mod. f_equal. ring.
Qed.

(** The loops of the source read the windows they hash. *)
Lemma init_loop_horner (ps ts : buffer) (cnt n0 : nat) (hp ht : Z) :
  (n0 + cnt <= length ps)%nat -> (n0 + cnt <= length ts)%nat ->
  init_loop P ps ts cnt (Z.of_nat n0) hp ht
  = Ok (horner P hp (take cnt (drop n0 ps)), horner P ht (take cnt (drop n0 ts))).
Proof.
  revert n0 hp ht. induction cnt as [ | cnt IH]; intros n0 hp ht Hps Hts.
  - reflexivity.
  - destruct (lookup_lt_is_Some_2 ps n0) as [p Hp]; [lia | ].
    destruct (lookup_lt_is_Some_2 ts n0) as [t Ht]; [lia | ].
    cbn [init_loop]. rewrite (read_lookup _ _ _ Hp), (read_lookup _ _ _ Ht).
    cbn [mbind result_bind].
    replace (Z.of_nat n0 + 1) with (Z.of_nat (S n0)) by lia.
    rewrite IH by lia.
    rewrite (drop_S _ _ _ Hp), (drop_S _ _ _ Ht). reflexivity.
Qed.

Lemma hash_window_horner (buf : buffer) (k : nat) :
  (k <= length buf)%nat ->
  hash_window P buf (Z.of_nat k) = Ok (horner P 0 (take k buf)).
Proof.
  intros Hk. unfold hash_window, init_hashes. rewrite Nat2Z.id.
  pose proof (init_loop_horner buf buf k 0 0 0) as Hl.
  change (Z.of_nat 0) with 0 in Hl. rewrite !drop_0 in Hl.
  rewrite Hl by (simpl; lia). reflexivity.
Qed.

(** One [roll] takes the hash of the window at [i] to the hash of the
    window at [i + 1]. *)
Lemma roll_horner (fuel : nat) (ts : buffer) (k i : nat) :
  (0 < k)%nat -> (S i + k <= length ts)%nat ->
  roll fuel P (base_exp P (Z.of_nat k)) ts (Z.of_nat k) (Z.of_nat i)
       (horner P 0 (take k (drop i ts)))
  = Ok (horner P 0 (take k (drop (S i) ts))).
Proof.
  intros Hk Hlen.
  destruct (lookup_lt_is_Some_2 ts i) as [a Ha]; [lia | ].
  destruct (lookup_lt_is_Some_2 ts (i + k)) as [c Hc]; [lia | ].
  unfold roll. rewrite (read_lookup _ _ _ Ha).
  rewrite <- Nat2Z.inj_add, (read_lookup _ _ _ Hc).
  cbn [mbind result_bind].
  destruct k as [ | m]; [lia | ].
  set (mid := take m (drop (S i) ts)).
  assert (Hmid : length mid = m)
    by (unfold mid; rewrite length_take, length_drop; lia).
  assert (Hw : take (S m) (drop i ts) = a :: mid)
    by (rewrite (drop_S _ _ _ Ha); reflexivity).
  assert (Hw' : take (S m) (drop (S i) ts) = mid ++ [c]).
  { apply take_S_r. rewrite lookup_drop.
    replace (S i + m)%nat with (i + S m)%nat by lia. exact Hc. }
  rewrite Hw, Hw'. rewrite <- Hmid at 1. rewrite roll_value.
  apply keep_positive_nonneg.
  apply horner_range. unfold hash_max. lia.
Qed.

Lemma rolled_hash_horner (fuel : nat) (ts : buffer) (k i : nat) :
  (0 < k)%nat -> (i + k <= length ts)%nat ->
  rolled_hash fuel P ts (Z.of_nat k) i = Ok (horner P 0 (take k (drop i ts))).
Proof.
  intros Hk. induction i as [ | i IH]; intros Hlen.
  - cbn [rolled_hash]. rewrite drop_0. apply hash_window_horner. lia.
  - cbn [rolled_hash]. rewrite IH by lia. cbn [mbind result_bind].
    apply roll_horner; lia.
Qed.

(** The scan of [rabin_karp_match] holds the hash of the window it is at
    for as long as no window hash equals [ps_hash]: over [cnt] such
    positions from [i] on, [ts_hash] goes from the hash of the window at
    [i] to that of the window at [i + cnt]. *)
Lemma scan_loop_rolls (fuel : nat) (ps ts : buffer) (k : nat) (ps_hash : Z)
    (cnt i : nat) (st : scan_state) :
  (0 < k)%nat -> (i + cnt + k <= length ts)%nat ->
  ts_hash st = horner P 0 (take k (drop i ts)) ->
  (forall j, (i <= j < i + cnt)%nat ->
             horner P 0 (take k (drop j ts)) <> ps_hash) ->
  exists st',
    scan_loop fuel P ps (Z.of_nat k) ts ps_hash (base_exp P (Z.of_nat k))
              cnt (Z.of_nat i) st = Ok st' /\
    ts_hash st' = horner P 0 (take k (drop (i + cnt) ts)) /\
    response st' = response st.
Proof.
  intros Hk. revert i st.
  induction cnt as [ | cnt IH]; intros i st Hlen Hst Hne.
  - exists st. rewrite Nat.add_0_r. repeat split. exact Hst.
  - cbn [scan_loop]. unfold scan_body.
    rewrite print_hash_ts_hash, Hst.
    destruct (Z.eqb_spec (horner P 0 (take k (drop i ts))) ps_hash) as [Heq | _];
      [exfalso; apply (Hne i); [lia | exact Heq] | ].
    rewrite roll_horner by lia. cbn [mbind result_bind].
    replace (Z.of_nat i + 1) with (Z.of_nat (S i)) by lia.
    destruct (IH (S i)
                (ScanState (printed (print_hash st)) (response (print_hash st))
                   (horner P 0 (take k (drop (S i) ts))) (output (print_hash st))))
      as (st' & Hrun & Hhash & Hresp).
    + lia.
    + reflexivity.
    + intros j Hj. apply Hne. lia.
    + exists st'. split; [exact Hrun | split].
      * rewrite Hhash. f_equal. f_equal. f_equal. lia.
      * rewrite Hresp. cbn [response]. apply print_hash_response.
Qed.

(** C1 (hash consistency).  Under a positive modulus whose product with
    the base fits a [long long], for every buffer [ts], chunk size [k > 0]
    and position [i] of a [k]-byte window of [ts]: the hash initialised at
    position 0 by Horner's method and rolled [i] times (take out the
    outgoing byte times [base^(k-1)], multiply by the base, add the
    incoming byte) is defined and is the hash that the initial loop
    computes from scratch on the window at position [i]. *)
Theorem rolled_hash_consistent (fuel : nat) (ts : buffer) (k : Z) (i : nat) :
  0 < k -> Z.of_nat i + k <= Z.of_nat (length ts) ->
  exists h, rolled_hash fuel P ts k i = Ok h /\
            hash_window P (drop i ts) k = Ok h.
Proof.
  intros Hk Hlen.
  rewrite <- (Z2Nat.id k) in * by lia.
  exists (horner P 0 (take (Z.to_nat k) (drop i ts))). split.
  - apply rolled_hash_horner; lia.
  - apply hash_window_horner. rewrite length_drop. lia.
Qed.

End RollingHash.

Lemma rolled_hash_consistent_witness :
  0 < BIG_PRIME /\ 256 * BIG_PRIME < 2 ^ 63 /\
  exists h, rolled_hash 0 BIG_PRIME (bytes "abcdefgh") 3 4 = Ok h /\
            hash_window BIG_PRIME (drop 4 (bytes "abcdefgh")) 3 = Ok h.
Proof.
  split; [reflexivity | split; [reflexivity | ]].
  apply (rolled_hash_consistent BIG_PRIME); [reflexivity | reflexivity | lia | simpl; lia].
Defined.

(** ** What [rabin_karp_match] does guarantee: no false match *)

Lemma verify_loop_full (ps ts : buffer) (i : Z) (cnt : nat) (j j' : Z) :
  verify_loop ps ts i cnt j = Ok j' ->
  j' <= j + Z.of_nat cnt /\
  (j' = j + Z.of_nat cnt ->
   forall x, j <= x < j + Z.of_nat cnt ->
             exists v, read ts (i + x) = Ok v /\ read ps x = Ok v).
Proof.
  revert j. induction cnt as [ | cnt IH]; intros j Hrun.
  - injection Hrun as <-. split; [lia | intros _ x Hx; lia].
  - cbn [verify_loop] in Hrun.
    destruct (read ts (i + j)) as [t | err] eqn:Ht; [ | discriminate].
    destruct (read ps j) as [p | err] eqn:Hp; [ | discriminate].
    cbn [mbind result_bind] in Hrun.
    destruct (Z.eqb_spec t p) as [-> | Hne].
    + destruct (IH _ Hrun) as [Hle Hall]. split; [lia | ].
      intros Hj' x Hx.
      destruct (Z.eq_dec x j) as [-> | Hxj]; [exists p; split; assumption | ].
      apply Hall; lia.
    + injection Hrun as <-. split; [lia | intros Hj'; lia].
Qed.

Lemma scan_body_response (fuel : nat) (P : Z) (ps : buffer) (k : Z) (ts : buffer)
    (ps_hash e i : Z) (st st' : scan_state) :
  scan_body fuel P ps k ts ps_hash e i st = Ok st' ->
  response st' = 1 ->
  response st = 1 \/ occurs_at ps k ts i.
Proof.
  unfold scan_body. intros Hrun Hresp.
  destruct (ts_hash (print_hash st) =? ps_hash).
  - destruct (verify_loop ps ts i (Z.to_nat k) 0) as [j | err] eqn:Hv;
      [ | discriminate].
    cbn [mbind result_bind] in Hrun. injection Hrun as <-.
    destruct (Z.eqb_spec j k) as [-> | Hjk].
    + right. destruct (verify_loop_full _ _ _ _ _ _ Hv) as [Hle Hall].
      intros x Hx. apply Hall; lia.
    + left. rewrite <- print_hash_response. exact Hresp.
  - destruct (roll fuel P e ts k i (ts_hash (print_hash st))); [ | discriminate].
    cbn [mbind result_bind] in Hrun. injection Hrun as <-.
    left. rewrite <- print_hash_response. exact Hresp.
Qed.

Lemma scan_loop_response (fuel : nat) (P : Z) (ps : buffer) (k : Z) (ts : buffer)
    (ps_hash e : Z) (cnt : nat) (i : Z) (st st' : scan_state) :
  scan_loop fuel P ps k ts ps_hash e cnt i st = Ok st' ->
  response st' = 1 ->
  response st = 1 \/
  exists i', i <= i' < i + Z.of_nat cnt /\ occurs_at ps k ts i'.
Proof.
  revert i st. induction cnt as [ | cnt IH]; intros i st Hrun Hresp.
  - injection Hrun as <-. left. exact Hresp.
  - cbn [scan_loop] in Hrun.
    destruct (scan_body fuel P ps k ts ps_hash e i st) as [st1 | err] eqn:Hbody;
      [ | discriminate].
    cbn [mbind result_bind] in Hrun.
    destruct (IH _ _ Hrun Hresp) as [H1 | (i' & Hi' & Hocc)].
    + destruct (scan_body_response _ _ _ _ _ _ _ _ _ _ Hbody H1) as [H0 | Hocc].
      * left. exact H0.
      * right. exists i. split; [lia | exact Hocc].
    + right. exists i'. split; [lia | exact Hocc].
Qed.

(** When [rabin_karp_match] returns 1, the chunk is in the target, at a
    position the scan visits: every hash equality is confirmed byte by
    byte before [response] is set. *)
Lemma rabin_karp_match_sound (fuel : nat) (P : Z) (ps : buffer) (k : Z)
    (ts : buffer) (n : Z) (out : list event) :
  rabin_karp_match fuel P ps k ts n = Ok (1, out) ->
  exists i, 0 <= i < n - k /\ occurs_at ps k ts i.
Proof.
  unfold rabin_karp_match. intros Hrun.
  destruct ((P =? 0) && (1 <=? k)); [discriminate | ].
  destruct (init_hashes P ps k ts) as [hs | err]; [ | discriminate].
  cbn [mbind result_bind] in Hrun.
  destruct (scan_loop fuel P ps k ts (fst hs) (base_exp P k) (Z.to_nat (n - k)) 0
              (ScanState 0 0 (snd hs) [OutHashLn (fst hs)]))
    as [st | err] eqn:Hscan; [ | discriminate].
  cbn [mbind result_bind] in Hrun. injection Hrun as Hresp _.
  destruct (scan_loop_response _ _ _ _ _ _ _ _ _ _ _ Hscan Hresp)
    as [H0 | (i & Hi & Hocc)]; [discriminate H0 | ].
  exists i. split; [lia | exact Hocc].
Qed.

(** ** Scenario A *)

(** C9 (concrete scenario A).  With base 256, modulus 5003943032159437 and
    [k = 4], the window hash of the 4-byte buffer ["aaaa"] is the closed
    form [(97*256^3 + 97*256^2 + 97*256 + 97) mod 5003943032159437]; it is
    the value of both hashes the initial loop of [rabin_karp_match]
    creates, and the first line the function prints. *)
Theorem scenario_A_hash :
  let closed := (97 * 256 ^ 3 + 97 * 256 ^ 2 + 97 * 256 + 97) mod 5003943032159437 in
  base = 256 /\
  hash_window BIG_PRIME (bytes "aaaa") 4 = Ok closed /\
  init_hashes BIG_PRIME (bytes "aaaa") 4 (bytes "aaaa") = Ok (closed, closed) /\
  (forall fuel,
     snd <$> rabin_karp_match fuel BIG_PRIME (bytes "aaaa") 4 (bytes "aaaa") 4
     = Ok [OutHashLn closed]).
Proof.
  intros closed. split; [reflexivity | split; [reflexivity | split; [reflexivity | ]]].
  intros fuel. reflexivity.
Qed.

(** ** The modular helpers at the edge of their range *)

(** C4 (modular helper postconditions), at the inputs where the code
    leaves the claim: with [a = 1] and [b = BIG_PRIME - 1], both in
    [0, modulus), [madd] returns the modulus itself where [(a + b) mod
    modulus] is 0; with [a = b = 0], [mdel] adds the modulus back although
    the raw difference is not negative, and returns the modulus where
    [(a - b) mod modulus] is 0.  Neither result lies in [0, modulus). *)
Theorem madd_mdel_reach_modulus :
  madd BIG_PRIME 1 (BIG_PRIME - 1) = BIG_PRIME /\
  (1 + (BIG_PRIME - 1)) mod BIG_PRIME = 0 /\
  mdel BIG_PRIME 0 0 = BIG_PRIME /\
  (0 - 0) mod BIG_PRIME = 0 /\
  (madd BIG_PRIME 1 (BIG_PRIME - 1) <? BIG_PRIME) = false /\
  (mdel BIG_PRIME 0 0 <? BIG_PRIME) = false.
Proof. repeat split. Qed.

(** ** The single-chunk matcher *)

(** C2 (single-chunk matcher correctness), where the code leaves the
    claim: the scan runs over the positions [i < n - k] and never looks at
    the last window, at position [n - k].  A chunk is therefore not found
    in a target equal to it ([n = k]: the scan has no iteration), whatever
    its bytes are; and ["b"] is not found in ["ab"], where it is the last
    window. *)
Theorem rabin_karp_match_skips_last_window :
  (forall (fuel : nat) (s : buffer),
     rabin_karp_match fuel BIG_PRIME s (Z.of_nat (length s)) s (Z.of_nat (length s))
     = Ok (0, [OutHashLn (horner BIG_PRIME 0 s)])) /\
  (forall fuel : nat,
     rabin_karp_match fuel BIG_PRIME (bytes "b") 1 (bytes "ab") 2
     = Ok (0, [OutHashLn 98; OutHashSp 97])) /\
  take 1 (drop 1 (bytes "ab")) = bytes "b".
Proof.
  split; [ | split; [ | reflexivity]].
  - intros fuel s. unfold rabin_karp_match.
    change (BIG_PRIME =? 0) with false. cbn [andb].
    unfold init_hashes. rewrite Nat2Z.id.
    pose proof (init_loop_horner BIG_PRIME s s (length s) 0 0 0) as Hl.
    change (Z.of_nat 0) with 0 in Hl. rewrite !drop_0 in Hl.
    rewrite Hl by (simpl; lia). rewrite firstn_all.
    cbn [mbind result_bind fst snd]. rewrite Z.sub_diag. reflexivity.
  - intros fuel. destruct fuel; reflexivity.
Qed.

(** ** The naive matcher *)

(** C10 (in-bounds access of the naive matcher), where the code leaves the
    claim: the outer loop runs over all [i < n], not over [i <= n - k].
    With [ps = "ab"], [k = 2] and [ts = "ca"], [n = 2], the byte at [i = 1]
    matches [ps[0]] and the next read is [ts[2]], at index [n]. *)
Theorem simple_substr_match_reads_past_end :
  Z.of_nat (length (bytes "ab")) = 2 /\ Z.of_nat (length (bytes "ca")) = 2 /\
  simple_substr_match (bytes "ab") 2 (bytes "ca") 2 = Err (OutOfBounds 2).
Proof. repeat split. Qed.

(** ** Exact match *)

(** C7 (exact-match correctness), where the code leaves the claim: the
    comparison loop ends at the first zero byte of [qs], not at [m].  The
    two 2-byte buffers [\0 a] and [\0 b] differ in their second byte and
    are reported as a match; [main] prints ["Exact match"] for two files
    with these contents. *)
Theorem exact_match_stops_at_zero_byte :
  exact_match [chr 0; chr 97] 2 [chr 0; chr 98] 2 = Ok 1 /\
  read [chr 0; chr 97] 1 = Ok 97 /\
  read [chr 0; chr 98] 1 = Ok 98 /\
  (forall (fuel : nat) (k : Z),
     main fuel 0 k BIG_PRIME [chr 0; chr 97; chr 10] [chr 0; chr 98; chr 10]
     = Ok (0, [OutExact true])).
Proof.
  split; [reflexivity | split; [reflexivity | split; [reflexivity | ]]].
  intros fuel k. reflexivity.
Qed.

(** ** The normalizer *)

(** C6 (normalizer correctness), where the code leaves the claim: a
    whitespace character is dropped as trailing only when it is the last
    byte of the input.  ["a  "] (two trailing spaces) is normalized to
    ["a "], of length 2, which ends in a space. *)
Theorem normalize_keeps_trailing_space :
  normalize (bytes "a  ") 3 = Ok (bytes "a " ++ [chr 0], 2) /\
  isspace <$> read (bytes "a " ++ [chr 0]) (2 - 1) = Ok true.
Proof. split; reflexivity. Qed.

(** ** The Bloom filter *)

(** C3 (no false negatives), where the code leaves the claim: [bloom_add]
    has an empty body and [bloom_query] returns 0 whatever the filter and
    the key are, also for a key that was just added. *)
Theorem bloom_query_after_add (f : bloom_filter) (x : Z) :
  bloom_query (bloom_add f x) x = 0.
Proof. reflexivity. Qed.

(** C5 as the claim states it fails: with [bit_count = 8], [i = 0] and
    [key = 8], [hash_i] returns 9, which is neither the index
    [(8 mod 4189793 + 0 * (8 mod 3296731) + 1 + 0 * 0) mod 8 = 1] nor in
    [0, 8). *)
Lemma hash_i_not_reduced :
  hash_i 0 8 = 9 /\
  hash_i 0 8 <> (8 mod 4189793 + 0 * (8 mod 3296731) + 1 + 0 * 0) mod 8 /\
  ~ (0 <= hash_i 0 8 < 8).
Proof.
  split; [reflexivity | split].
  - vm_compute. discriminate.
  - vm_compute. intros [_ H]. discriminate H.
Qed.

(** C5 (derived bit index), amended.  [hash_i] takes no [bit_count] and
    does not reduce its result: for [i] in [0, 10) and a non-negative key
    (of a [long long]) it returns
    [(key mod 4189793) + i*(key mod 3296731) + 1 + i*i], a value in
    [1, 33860444].  The index of the claim is that value modulo
    [bit_count], to be taken by the caller; it lies in [0, bit_count) for
    every positive [bit_count]. *)
Theorem hash_i_value (i key bit_count : Z) :
  0 <= i < BLOOM_HASH_NUM -> 0 <= key < 2 ^ 63 -> 0 < bit_count ->
  hash_i i key = key mod 4189793 + i * (key mod 3296731) + 1 + i * i /\
  1 <= hash_i i key <= 33860444 /\
  hash_i i key mod bit_count
  = (key mod 4189793 + i * (key mod 3296731) + 1 + i * i) mod bit_count /\
  0 <= hash_i i key mod bit_count < bit_count.
Proof.
  unfold BLOOM_HASH_NUM. intros Hi Hkey Hbits.
  assert (Hval : hash_i i key
                 = key mod 4189793 + i * (key mod 3296731) + 1 + i * i).
  { unfold hash_i, H1PRIME, H2PRIME.
    rewrite !Z.rem_mod_nonneg by lia.
    pose proof (Z.mod_pos_bound key 4189793 ltac:(lia)) as H1.
    pose proof (Z.mod_pos_bound key 3296731 ltac:(lia)) as H2.
    assert (0 <= i * (key mod 3296731) <= 9 * 3296730) by nia.
    assert (0 <= i * i <= 81) by nia.
    unfold wrap64, wrap32.
    rewrite (Z.mod_small (i * i + 2 ^ 31)) by lia.
    rewrite (Z.mod_small (i * (key mod 3296731) + 2 ^ 63)) by lia.
    replace (i * (key mod 3296731) + 2 ^ 63 - 2 ^ 63) with (i * (key mod 3296731)) by lia.
    rewrite (Z.mod_small (key mod 4189793 + i * (key mod 3296731) + 2 ^ 63)) by lia.
    replace (key mod 4189793 + i * (key mod 3296731) + 2 ^ 63 - 2 ^ 63 + 1)
      with (key mod 4189793 + i * (key mod 3296731) + 1) by lia.
    rewrite (Z.mod_small (key mod 4189793 + i * (key mod 3296731) + 1 + 2 ^ 63)) by lia.
    replace (key mod 4189793 + i * (key mod 3296731) + 1 + 2 ^ 63 - 2 ^ 63
             + (i * i + 2 ^ 31 - 2 ^ 31))
      with (key mod 4189793 + i * (key mod 3296731) + 1 + i * i) by lia.
    rewrite (Z.mod_small (key mod 4189793 + i * (key mod 3296731) + 1 + i * i + 2 ^ 63)) by lia.
    replace (key mod 4189793 + i * (key mod 3296731) + 1 + i * i + 2 ^ 63 - 2 ^ 63)
      with (key mod 4189793 + i * (key mod 3296731) + 1 + i * i) by lia.
    rewrite Z.mod_small by lia. lia. }
  rewrite Hval.
  pose proof (Z.mod_pos_bound key 4189793 ltac:(lia)).
  pose proof (Z.mod_pos_bound key 3296731 ltac:(lia)).
  repeat split; try (apply Z.mod_pos_bound; lia); nia.
Qed.

Lemma hash_i_value_witness :
  0 <= 3 < BLOOM_HASH_NUM /\ 0 <= 5003943032159436 < 2 ^ 63 /\ 0 < 80 /\
  hash_i 3 5003943032159436
  = 5003943032159436 mod 4189793 + 3 * (5003943032159436 mod 3296731) + 1 + 3 * 3.
Proof.
  split; [unfold BLOOM_HASH_NUM; lia | split; [lia | split; [lia | ]]].
  apply (hash_i_value 3 5003943032159436 80); unfold BLOOM_HASH_NUM; lia.
Defined.

(** ** The scan and the rolling update *)

(** At a position where the two hashes differ, the scan applies [roll]. *)
Lemma scan_body_rolls (fuel : nat) (P : Z) (ps : buffer) (k : Z) (ts : buffer)
    (ps_hash e i : Z) (st : scan_state) :
  ts_hash st <> ps_hash ->
  ts_hash <$> scan_body fuel P ps k ts ps_hash e i st
  = roll fuel P e ts k i (ts_hash st).
Proof.
  intros Hne. unfold scan_body. rewrite print_hash_ts_hash.
  destruct (Z.eqb_spec (ts_hash st) ps_hash) as [Heq | _]; [contradiction | ].
  destruct (roll fuel P e ts k i (ts_hash st)); reflexivity.
Qed.

(** At a position where they are equal, the hash is left as it is. *)
Lemma scan_body_keeps_equal_hash (fuel : nat) (P : Z) (ps : buffer) (k : Z)
    (ts : buffer) (e i : Z) (st st' : scan_state) :
  scan_body fuel P ps k ts (ts_hash st) e i st = Ok st' ->
  ts_hash st' = ts_hash st.
Proof.
  unfold scan_body. rewrite print_hash_ts_hash, Z.eqb_refl.
  destruct (verify_loop ps ts i (Z.to_nat k) 0) as [j | err]; [ | discriminate].
  cbn [mbind result_bind]. intros Hst. injection Hst as <-.
  destruct (j =? k); [reflexivity | apply print_hash_ts_hash].
Qed.

(** ** The command surface *)


(** * Further properties of the code *)

(** ** Bytes *)

Lemma u8_chr (z : Z) : 0 <= z < 256 -> u8 (chr z) = z.
Proof.
  intros Hz. unfold u8, chr.
  rewrite N_ascii_embedding by lia. lia.
Qed.

Lemma chr_u8 (c : ascii) : chr (u8 c) = c.
Proof. unfold u8, chr. rewrite N2Z.id. apply ascii_N_embedding. Qed.

Lemma isupper_not_space (z : Z) : isupper z = true -> isspace z = false.
Proof. unfold isupper, isspace. lia. Qed.

Lemma tolower_upper (z : Z) :
  isupper z = true ->
  0 <= tolower z < 256 /\ isupper (tolower z) = false /\ isspace (tolower z) = false.
Proof. unfold tolower. intros Hz. rewrite Hz. unfold isupper, isspace in *. lia. Qed.

Lemma store_ok (buf : list ascii) (j : nat) (c : ascii) :
  (j < length buf)%nat -> store buf (Z.of_nat j) c = Ok (<[j := c]> buf).
Proof.
  intros Hj. unfold store, buffer.
  destruct (Z.leb_spec 0 (Z.of_nat j)); [ | lia].
  destruct (Z.ltb_spec (Z.of_nat j) (Z.of_nat (length buf))); [ | lia].
  cbn [andb]. now rewrite Nat2Z.id.
Qed.

Lemma read_past_end (buf : list ascii) (i : nat) :
  (length buf <= i)%nat -> read buf (Z.of_nat i) = Err (OutOfBounds (Z.of_nat i)).
Proof.
  intros Hi. unfold read, buffer.
  destruct (Z.ltb_spec (Z.of_nat i) 0); [reflexivity | ].
  rewrite Nat2Z.id. destruct (buf !! i) as [c | ] eqn:Hc; [ | reflexivity].
  apply lookup_lt_Some in Hc. lia.
Qed.

(** ** [normalize] rewrites the array as [normalized] says *)

Lemma length_normalized (len i : Z) (ps : bool) (l : list ascii) :
  (length (normalized len i ps l) <= length l)%nat.
Proof.
  revert i ps. induction l as [ | c l IH]; intros i ps; cbn [normalized length].
  - lia.
  - destruct (isupper (u8 c)); [cbn [length]; specialize (IH (i + 1) false); lia | ].
    destruct (isspace (u8 c)).
    + destruct ((0 <? i) && (i <? len - 1) && negb ps); cbn [length];
        specialize (IH (i + 1) true); lia.
    + cbn [length]. specialize (IH (i + 1) false). lia.
Qed.

(** One store of the loop: at [j <= i], it extends the output by one byte
    and leaves the input from [i + 1] on as it was. *)
Lemma store_step (buf : list ascii) (i j : nat) (x : ascii) :
  (j <= i)%nat -> (i < length buf)%nat ->
  take (S j) (<[j := x]> buf) = take j buf ++ [x] /\
  drop (S i) (<[j := x]> buf) = drop (S i) buf /\
  length (<[j := x]> buf) = length buf.
Proof.
  intros Hji Hi. split; [ | split].
  - rewrite (take_S_r _ _ x) by (apply list_lookup_insert_eq; lia).
    rewrite take_insert_ge by lia. reflexivity.
  - apply drop_insert_lt. lia.
  - apply length_insert.
Qed.

Lemma normalize_loop_normalized (len : Z) (cnt : nat) :
  forall (i j : nat) (buf : list ascii) (ps : bool),
    (j <= i)%nat -> (i + cnt <= length buf)%nat ->
    (forall i', i = S i' -> exists p, buf !! i' = Some p /\ isspace (u8 p) = ps) ->
    let out := normalized len (Z.of_nat i) ps (take cnt (drop i buf)) in
    exists buf',
      normalize_loop len cnt (Z.of_nat i) (Z.of_nat j) buf
      = Ok (buf', Z.of_nat (j + length out)) /\
      take (j + length out) buf' = take j buf ++ out /\
      length buf' = length buf.
Proof.
  induction cnt as [ | cnt IH]; intros i j buf ps Hji Hlen Hprev out.
  - subst out. cbn [take normalized length normalize_loop].
    exists buf. rewrite Nat.add_0_r, app_nil_r. repeat split.
  - destruct (lookup_lt_is_Some_2 buf i) as [c Hc]; [lia | ].
    subst out. rewrite (drop_S _ _ _ Hc). cbn [take normalized normalize_loop].
    rewrite (read_lookup _ _ _ Hc). cbn [mbind result_bind].
    replace (Z.of_nat i + 1) with (Z.of_nat (S i)) by lia.
    replace (Z.of_nat j + 1) with (Z.of_nat (S j)) by lia.
    assert (Hnext : forall (x : ascii) (ps' : bool),
              isspace (u8 x) = ps' -> isspace (u8 c) = ps' ->
              forall i', S i = S i' ->
                exists p, <[j := x]> buf !! i' = Some p /\ isspace (u8 p) = ps').
    { intros x ps' Hx Hcs i' Hi'. injection Hi' as <-.
      destruct (Nat.eq_dec j i) as [-> | Hne].
      - exists x. split; [apply list_lookup_insert_eq; lia | exact Hx].
      - exists c. split; [rewrite list_lookup_insert_ne by exact Hne; exact Hc | exact Hcs]. }
    assert (Hemit : forall (x : ascii) (ps' : bool),
              isspace (u8 x) = ps' -> isspace (u8 c) = ps' ->
              exists buf',
                (buf1 ← store buf (Z.of_nat j) x;
                 normalize_loop len cnt (Z.of_nat (S i)) (Z.of_nat (S j)) buf1)
                = Ok (buf', Z.of_nat
                        (j + length (x :: normalized len (Z.of_nat (S i)) ps'
                                            (take cnt (drop (S i) buf))))) /\
                take (j + length (x :: normalized len (Z.of_nat (S i)) ps'
                                         (take cnt (drop (S i) buf)))) buf'
                = take j buf ++ x :: normalized len (Z.of_nat (S i)) ps'
                                      (take cnt (drop (S i) buf)) /\
                length buf' = length buf).
    { intros x ps' Hx Hcs.
      destruct (store_step buf i j x) as (Htake & Hdrop & Hl); [lia | lia | ].
      rewrite store_ok by lia. cbn [mbind result_bind].
      destruct (IH (S i) (S j) (<[j := x]> buf) ps') as (buf' & Hrun & Hout & Hl');
        [lia | rewrite Hl; lia | apply Hnext; assumption | ].
      rewrite Hdrop in Hrun, Hout. rewrite Htake in Hout.
      exists buf'. cbn [length].
      replace (j + S (length (normalized len (Z.of_nat (S i)) ps'
                            (take cnt (drop (S i) buf)))))%nat
        with (S j + length (normalized len (Z.of_nat (S i)) ps'
                              (take cnt (drop (S i) buf))))%nat by lia.
      split; [exact Hrun | split; [ | congruence]].
      rewrite Hout, <- app_assoc. reflexivity. }
    assert (Hskip : isspace (u8 c) = true ->
              exists buf',
                normalize_loop len cnt (Z.of_nat (S i)) (Z.of_nat j) buf
                = Ok (buf', Z.of_nat
                        (j + length (normalized len (Z.of_nat (S i)) true
                                       (take cnt (drop (S i) buf))))) /\
                take (j + length (normalized len (Z.of_nat (S i)) true
                                    (take cnt (drop (S i) buf)))) buf'
                = take j buf ++ normalized len (Z.of_nat (S i)) true
                                  (take cnt (drop (S i) buf)) /\
                length buf' = length buf).
    { intros Hcs.
      apply (IH (S i) j buf true); [lia | lia | ].
      intros i' Hi'. injection Hi' as <-. exists c. split; assumption. }
    destruct (isupper (u8 c)) eqn:Hup.
    + destruct (tolower_upper _ Hup) as (Hr & _ & Hs).
      apply Hemit; [rewrite u8_chr by exact Hr; exact Hs | ].
      apply isupper_not_space, Hup.
    + destruct (isspace (u8 c)) eqn:Hsp.
      * destruct (Z.ltb_spec 0 (Z.of_nat i)) as [Hpos | Hzero]; cbn [andb];
          [ | apply Hskip; reflexivity].
        destruct (Z.of_nat i <? len - 1); cbn [andb];
          [ | apply Hskip; reflexivity].
        destruct i as [ | i']; [lia | ].
        destruct (Hprev i' eq_refl) as (p & Hp & Hps).
        replace (Z.of_nat (S i') - 1) with (Z.of_nat i') by lia.
        rewrite (read_lookup _ _ _ Hp). cbn [mbind result_bind].
        rewrite Hps. destruct ps; cbn [negb].
        -- apply Hskip; reflexivity.
        -- apply Hemit; [rewrite u8_chr by lia; reflexivity | reflexivity].
      * rewrite chr_u8. apply Hemit; [exact Hsp | reflexivity].
Qed.

(** The whole of [normalize]: the loop leaves [normalized] at the start of
    the array, and the terminator is stored behind it. *)
Lemma normalize_run (buf : list ascii) (n : nat) :
  (n <= length buf)%nat ->
  exists loop_buf,
    length loop_buf = length buf /\
    take (length (normalized (Z.of_nat n) 0 false (take n buf))) loop_buf
    = normalized (Z.of_nat n) 0 false (take n buf) /\
    normalize buf (Z.of_nat n)
    = (b ← store loop_buf
             (Z.of_nat (length (normalized (Z.of_nat n) 0 false (take n buf))))
             (chr 0);
       Ok (b, Z.of_nat (length (normalized (Z.of_nat n) 0 false (take n buf))))).
Proof.
  intros Hn.
  destruct (normalize_loop_normalized (Z.of_nat n) n 0 0 buf false)
    as (loop_buf & Hrun & Hout & Hl); [lia | lia | intros i' Hi'; discriminate | ].
  change (Z.of_nat 0) with 0 in Hrun. rewrite drop_0 in Hrun, Hout.
  cbn [Nat.add take app] in Hrun, Hout.
  exists loop_buf. split; [exact Hl | split; [exact Hout | ]].
  unfold normalize. rewrite Nat2Z.id, Hrun. reflexivity.
Qed.

Lemma normalized_no_space_length (len i : Z) (ps : bool) (l : list ascii) :
  Forall (fun c => isspace (u8 c) = false) l ->
  length (normalized len i ps l) = length l.
Proof.
  revert i ps. induction l as [ | c l IH]; intros i ps Hl; [reflexivity | ].
  apply Forall_cons in Hl as [Hc Hl]. cbn [normalized].
  destruct (isupper (u8 c)); [cbn [length]; now rewrite IH | ].
  rewrite Hc. cbn [length]. now rewrite IH.
Qed.

Lemma normalized_shape (len i : Z) (ps : bool) (l : list ascii) :
  Forall (fun c => isupper (u8 c) = false /\
                   (isspace (u8 c) = true -> c = chr 32))
         (normalized len i ps l).
Proof.
  revert i ps. induction l as [ | c l IH]; intros i ps; cbn [normalized];
    [constructor | ].
  destruct (isupper (u8 c)) eqn:Hup.
  - destruct (tolower_upper _ Hup) as (Hr & Hnu & Hns).
    constructor; [ | apply IH].
    rewrite u8_chr by exact Hr. split; [exact Hnu | ].
    rewrite Hns. discriminate.
  - destruct (isspace (u8 c)) eqn:Hsp.
    + destruct ((0 <? i) && (i <? len - 1) && negb ps); [ | apply IH].
      constructor; [ | apply IH]. split; reflexivity.
    + constructor; [ | apply IH]. split; [exact Hup | ].
      rewrite Hsp. discriminate.
Qed.

Lemma normalized_head (len i : Z) (ps : bool) (l : list ascii) (c : ascii) :
  i = 0 \/ ps = true ->
  head (normalized len i ps l) = Some c -> isspace (u8 c) = false.
Proof.
  revert i ps. induction l as [ | x l IH]; intros i ps Hstart; cbn [normalized];
    [discriminate | ].
  destruct (isupper (u8 x)) eqn:Hup.
  - destruct (tolower_upper _ Hup) as (Hr & _ & Hns).
    intros Hc. injection Hc as <-. rewrite u8_chr by exact Hr. exact Hns.
  - destruct (isspace (u8 x)) eqn:Hsp.
    + assert (Hcond : (0 <? i) && (i <? len - 1) && negb ps = false).
      { destruct Hstart as [-> | ->]; [reflexivity | ].
        now rewrite andb_false_r. }
      rewrite Hcond. apply IH. right. reflexivity.
    + intros Hc. injection Hc as <-. exact Hsp.
Qed.

Lemma normalized_adjacent (len i : Z) (ps : bool) (l : list ascii)
    (x : nat) (a b : ascii) :
  normalized len i ps l !! x = Some a ->
  normalized len i ps l !! S x = Some b ->
  isspace (u8 a) = true -> isspace (u8 b) = false.
Proof.
  revert i ps x. induction l as [ | c l IH]; intros i ps x; cbn [normalized];
    [discriminate | ].
  assert (Hcons : forall (y : ascii) (ps' : bool),
            (isspace (u8 y) = true -> ps' = true) ->
            (y :: normalized len (i + 1) ps' l) !! x = Some a ->
            (y :: normalized len (i + 1) ps' l) !! S x = Some b ->
            isspace (u8 a) = true -> isspace (u8 b) = false).
  { intros y ps' Hy Ha Hb Hsa. destruct x as [ | x].
    - injection Ha as ->.
      apply (normalized_head len (i + 1) ps' l b); [right; auto | ].
      rewrite head_lookup. exact Hb.
    - exact (IH _ _ _ Ha Hb Hsa). }
  destruct (isupper (u8 c)) eqn:Hup.
  - destruct (tolower_upper _ Hup) as (Hr & _ & Hns).
    apply Hcons. rewrite u8_chr by exact Hr. rewrite Hns. discriminate.
  - destruct (isspace (u8 c)) eqn:Hsp.
    + destruct ((0 <? i) && (i <? len - 1) && negb ps); [ | apply IH].
      apply Hcons. reflexivity.
    + apply Hcons. rewrite Hsp. discriminate.
Qed.

Lemma normalized_nil_all_space (len i : Z) (ps : bool) (l : list ascii) :
  normalized len i ps l = [] -> Forall (fun c => isspace (u8 c) = true) l.
Proof.
  revert i ps. induction l as [ | c l IH]; intros i ps; cbn [normalized];
    [constructor | ].
  destruct (isupper (u8 c)); [discriminate | ].
  destruct (isspace (u8 c)) eqn:Hsp; [ | discriminate].
  destruct ((0 <? i) && (i <? len - 1) && negb ps); [discriminate | ].
  intros Hnil. constructor; [exact Hsp | exact (IH _ _ Hnil)].
Qed.

Lemma last_cons_nil_or {A : Type} (x : A) (l : list A) (s : A) :
  last (x :: l) = Some s -> (l = [] /\ s = x) \/ (l <> [] /\ last l = Some s).
Proof.
  destruct l as [ | y l]; cbn [last].
  - intros Hs. injection Hs as <-. left. split; reflexivity.
  - intros Hs. right. split; [discriminate | exact Hs].
Qed.

Lemma normalized_last_space (len : Z) (l : list ascii) :
  forall (i : Z) (ps : bool) (s : ascii),
    len = i + Z.of_nat (length l) ->
    last (normalized len i ps l) = Some s -> isspace (u8 s) = true ->
    exists pre a b, l = pre ++ [a; b] /\
                    isspace (u8 a) = true /\ isspace (u8 b) = true.
Proof.
  induction l as [ | c l IH]; intros i ps s Hlen; cbn [normalized];
    [discriminate | ].
  cbn [length] in Hlen.
  assert (Hrest : forall ps', last (normalized len (i + 1) ps' l) = Some s ->
            isspace (u8 s) = true ->
            exists pre a b, c :: l = pre ++ [a; b] /\
                            isspace (u8 a) = true /\ isspace (u8 b) = true).
  { intros ps' Hs Hsp.
    destruct (IH (i + 1) ps' s) as (pre & a & b & -> & Ha & Hb); [lia | exact Hs | exact Hsp | ].
    exists (c :: pre), a, b. repeat split; assumption. }
  assert (Hnonsp : forall (y : ascii) (ps' : bool),
            isspace (u8 y) = false ->
            last (y :: normalized len (i + 1) ps' l) = Some s ->
            isspace (u8 s) = true ->
            exists pre a b, c :: l = pre ++ [a; b] /\
                            isspace (u8 a) = true /\ isspace (u8 b) = true).
  { intros y ps' Hy Hs Hsp.
    destruct (last_cons_nil_or _ _ _ Hs) as [[_ ->] | [_ Hs']]; [congruence | ].
    exact (Hrest _ Hs' Hsp). }
  destruct (isupper (u8 c)) eqn:Hup.
  - destruct (tolower_upper _ Hup) as (Hr & _ & Hns).
    apply Hnonsp. rewrite u8_chr by exact Hr. exact Hns.
  - destruct (isspace (u8 c)) eqn:Hc; [ | apply Hnonsp; exact Hc].
    destruct (Z.ltb_spec 0 i) as [Hi | Hi]; cbn [andb]; [ | apply Hrest].
    destruct (Z.ltb_spec i (len - 1)) as [Hi' | Hi']; cbn [andb]; [ | apply Hrest].
    destruct (negb ps); [ | apply Hrest].
    intros Hs Hsp.
    destruct (last_cons_nil_or _ _ _ Hs) as [[Hnil _] | [_ Hs']];
      [ | exact (Hrest _ Hs' Hsp)].
    apply normalized_nil_all_space in Hnil.
    destruct (last l) as [b | ] eqn:Hlast.
    + apply last_Some in Hlast as [l' ->].
      apply Forall_app in Hnil as [Hl' Hb]. apply Forall_inv in Hb.
      destruct (last l') as [a | ] eqn:Hlast'.
      * apply last_Some in Hlast' as [l'' ->].
        apply Forall_app in Hl' as [_ Ha]. apply Forall_inv in Ha.
        exists (c :: l''), a, b.
        split; [now rewrite <- app_assoc | split; assumption].
      * apply last_None in Hlast' as ->.
        exists [], c, b. split; [reflexivity | split; assumption].
    + apply last_None in Hlast as ->. cbn [length] in Hlen. lia.
Qed.

Lemma normalize_ok_inv (buf buf' : list ascii) (n : nat) (j : Z) :
  (n <= length buf)%nat ->
  normalize buf (Z.of_nat n) = Ok (buf', j) ->
  let out := normalized (Z.of_nat n) 0 false (take n buf) in
  j = Z.of_nat (length out) /\
  (length out < length buf)%nat /\
  take (length out) buf' = out /\
  buf' !! length out = Some (chr 0) /\
  length buf' = length buf.
Proof.
  intros Hn Hrun out.
  destruct (normalize_run buf n Hn) as (loop_buf & Hl & Hout & Heq).
  fold out in Hout, Heq. rewrite Heq in Hrun. clear Heq.
  unfold store, buffer in Hrun.
  destruct (Z.leb_spec 0 (Z.of_nat (length out))); [ | lia].
  destruct (Z.ltb_spec (Z.of_nat (length out)) (Z.of_nat (length loop_buf)))
    as [Hlt | Hge]; cbn [andb mbind result_bind] in Hrun; [ | discriminate].
  injection Hrun as <- <-. rewrite Nat2Z.id.
  split; [reflexivity | split; [lia | split; [ | split]]].
  - rewrite take_insert_ge by lia. exact Hout.
  - apply list_lookup_insert_eq. lia.
  - rewrite length_insert. exact Hl.
Qed.

(** [normalize] as an out-of-place filter.  When the output is shorter
    than the array, [normalize] succeeds: it returns the length of
    [normalized], leaves [normalized] at the start of the array and a zero
    byte behind it, and keeps the size of the array. *)
Theorem normalize_in_place (buf : list ascii) (n : nat) :
  (n <= length buf)%nat ->
  (length (normalized (Z.of_nat n) 0 false (take n buf)) < length buf)%nat ->
  exists buf',
    normalize buf (Z.of_nat n)
    = Ok (buf', Z.of_nat (length (normalized (Z.of_nat n) 0 false (take n buf)))) /\
    take (length (normalized (Z.of_nat n) 0 false (take n buf))) buf'
    = normalized (Z.of_nat n) 0 false (take n buf) /\
    buf' !! length (normalized (Z.of_nat n) 0 false (take n buf)) = Some (chr 0) /\
    length buf' = length buf.
Proof.
  intros Hn Hroom.
  destruct (normalize_run buf n Hn) as (loop_buf & Hl & Hout & Heq).
  rewrite Heq, store_ok by lia. cbn [mbind result_bind].
  eexists. split; [reflexivity | split; [ | split]].
  - rewrite take_insert_ge by lia. exact Hout.
  - apply list_lookup_insert_eq. lia.
  - rewrite length_insert. exact Hl.
Qed.

Lemma normalize_in_place_witness :
  (5 <= length (bytes "Ab  c"))%nat /\
  exists buf',
    normalize (bytes "Ab  c") 5 = Ok (buf', 4) /\
    take 4 buf' = bytes "ab c" /\
    buf' !! 4%nat = Some (chr 0) /\
    length buf' = 5%nat.
Proof.
  split; [simpl; lia | ].
  apply (normalize_in_place (bytes "Ab  c") 5); simpl; lia.
Defined.

(** [normalize] needs one byte of room.  On an array of exactly [len]
    bytes none of which is whitespace (the empty array included), nothing
    is dropped, and the store of the terminator falls one byte past the
    array. *)
Theorem normalize_without_room (buf : list ascii) :
  Forall (fun c => isspace (u8 c) = false) buf ->
  normalize buf (Z.of_nat (length buf))
  = Err (OutOfBounds (Z.of_nat (length buf))).
Proof.
  intros Hns.
  destruct (normalize_run buf (length buf)) as (loop_buf & Hl & _ & Heq); [lia | ].
  rewrite Heq. rewrite firstn_all.
  rewrite normalized_no_space_length by exact Hns.
  unfold store.
  destruct (Z.ltb_spec (Z.of_nat (length buf)) (Z.of_nat (length loop_buf)));
    [lia | ].
  rewrite andb_false_r. reflexivity.
Qed.

Lemma normalize_without_room_witness :
  Forall (fun c => isspace (u8 c) = false) (bytes "abc") /\
  normalize (bytes "abc") 3 = Err (OutOfBounds 3).
Proof.
  split; [repeat constructor | ].
  apply (normalize_without_room (bytes "abc")). repeat constructor.
Defined.

(** The shape of what [normalize] returns.  When [normalize] succeeds on
    the first [n] bytes of an array, the length [j] it returns is at most
    [n] and below the size of the array, and the [j] bytes it leaves hold
    no upper-case letter, no whitespace other than the space character, no
    whitespace as first byte and no two whitespace bytes in a row. *)
Theorem normalize_output_shape (buf buf' : list ascii) (n : nat) (j : Z) :
  (n <= length buf)%nat ->
  normalize buf (Z.of_nat n) = Ok (buf', j) ->
  0 <= j <= Z.of_nat n /\ j < Z.of_nat (length buf) /\
  Forall (fun c => isupper (u8 c) = false /\
                   (isspace (u8 c) = true -> c = chr 32))
         (take (Z.to_nat j) buf') /\
  (forall c, head (take (Z.to_nat j) buf') = Some c -> isspace (u8 c) = false) /\
  (forall x a b,
     take (Z.to_nat j) buf' !! x = Some a ->
     take (Z.to_nat j) buf' !! S x = Some b ->
     isspace (u8 a) = true -> isspace (u8 b) = false).
Proof.
  intros Hn Hrun.
  destruct (normalize_ok_inv _ _ _ _ Hn Hrun) as (-> & Hroom & Hout & _ & _).
  rewrite Nat2Z.id, Hout.
  pose proof (length_normalized (Z.of_nat n) 0 false (take n buf)) as Hlen.
  rewrite length_take in Hlen.
  split; [lia | split; [lia | split; [ | split]]].
  - apply normalized_shape.
  - intros c. apply normalized_head. left. reflexivity.
  - intros x a b. apply normalized_adjacent.
Qed.

Lemma normalize_output_shape_witness :
  (5 <= length (bytes "Ab  c"))%nat /\
  normalize (bytes "Ab  c") 5 = Ok (bytes "ab c" ++ [chr 0], 4) /\
  0 <= 4 <= Z.of_nat 5.
Proof.
  split; [simpl; lia | split; [reflexivity | ]].
  apply (normalize_output_shape (bytes "Ab  c") (bytes "ab c" ++ [chr 0]) 5 4);
    [simpl; lia | reflexivity].
Defined.

(** Trailing whitespace.  The output of [normalize] on a whole array of
    [n] bytes ends in whitespace only when the last two bytes of the input
    are both whitespace. *)
Theorem normalize_trailing_space (buf buf' : list ascii) (n : nat) (j : Z)
    (s : ascii) :
  (n <= length buf)%nat ->
  normalize buf (Z.of_nat n) = Ok (buf', j) ->
  last (take (Z.to_nat j) buf') = Some s -> isspace (u8 s) = true ->
  exists pre a b, take n buf = pre ++ [a; b] /\
                  isspace (u8 a) = true /\ isspace (u8 b) = true.
Proof.
  intros Hn Hrun.
  destruct (normalize_ok_inv _ _ _ _ Hn Hrun) as (-> & _ & Hout & _ & _).
  rewrite Nat2Z.id, Hout.
  apply normalized_last_space. rewrite length_take. lia.
Qed.

Lemma normalize_trailing_space_witness :
  (3 <= length (bytes "a  "))%nat /\
  normalize (bytes "a  ") 3 = Ok (bytes "a " ++ [chr 0], 2) /\
  exists pre a b, take 3 (bytes "a  ") = pre ++ [a; b] /\
                  isspace (u8 a) = true /\ isspace (u8 b) = true.
Proof.
  split; [simpl; lia | split; [reflexivity | ]].
  apply (normalize_trailing_space (bytes "a  ") (bytes "a " ++ [chr 0]) 3 2 (chr 32));
    [simpl; lia | reflexivity | reflexivity | reflexivity].
Defined.

(** ** [exact_match] compares C strings *)

Lemma u8_inj (a b : ascii) : u8 a = u8 b -> a = b.
Proof. intros Heq. rewrite <- (chr_u8 a), <- (chr_u8 b), Heq. reflexivity. Qed.

Lemma read_cases (buf : list ascii) (i : Z) :
  (exists c, read buf i = Ok (u8 c)) \/ read buf i = Err (OutOfBounds i).
Proof.
  unfold read, buffer. destruct (i <? 0); [right; reflexivity | ].
  destruct (buf !! Z.to_nat i) as [c | ]; [left; exists c | right]; reflexivity.
Qed.

Lemma exact_loop_cstring (s rest ts : list ascii) :
  Forall (fun c => u8 c <> 0) s ->
  forall i : nat,
    exact_loop (s ++ chr 0 :: rest) ts (Z.of_nat i) = Ok 1 <->
    take (length s) (drop i ts) = s.
Proof.
  induction s as [ | q s IH]; intros Hs i.
  - cbn. split; reflexivity.
  - apply Forall_cons in Hs as [Hq Hs].
    cbn [app exact_loop length].
    destruct (Z.eqb_spec (u8 q) 0) as [Hz | _]; [contradiction | ].
    destruct (ts !! i) as [t | ] eqn:Ht.
    + rewrite (read_lookup _ _ _ Ht). cbn [mbind result_bind].
      rewrite (drop_S _ _ _ Ht). cbn [take].
      destruct (Z.eqb_spec (u8 q) (u8 t)) as [Heq | Hne].
      * apply u8_inj in Heq as ->.
        replace (Z.of_nat i + 1) with (Z.of_nat (S i)) by lia.
        rewrite (IH Hs (S i)). split; [intros ->; reflexivity | ].
        intros Hcons. injection Hcons as Htl. exact Htl.
      * split; [discriminate | ].
        intros Hcons. injection Hcons as -> _. contradiction.
    + rewrite read_past_end by (apply lookup_ge_None_1; exact Ht).
      rewrite drop_ge by (apply lookup_ge_None_1; exact Ht).
      split; discriminate.
Qed.

(** [exact_match] reports a match exactly when the two lengths it is given
    are equal and [ts] starts with the bytes of [qs] before the first zero
    byte of [qs]; the bytes behind that zero byte, and the value of [m]
    beyond its equality with [n], play no part. *)
Theorem exact_match_cstring (s rest ts : list ascii) (m n : Z) :
  Forall (fun c => u8 c <> 0) s ->
  exact_match (s ++ chr 0 :: rest) m ts n = Ok 1 <->
  m = n /\ take (length s) ts = s.
Proof.
  intros Hs. unfold exact_match.
  destruct (Z.eqb_spec m n) as [-> | Hne].
  - pose proof (exact_loop_cstring s rest ts Hs 0) as Hloop.
    change (Z.of_nat 0) with 0 in Hloop. rewrite drop_0 in Hloop.
    rewrite Hloop. split; [intros Hp; split; [reflexivity | exact Hp] | ].
    intros [_ Hp]. exact Hp.
  - split; [discriminate | ]. intros [Heq _]. contradiction.
Qed.

Lemma exact_match_cstring_witness :
  Forall (fun c => u8 c <> 0) (bytes "ab") /\
  (exact_match (bytes "ab" ++ chr 0 :: bytes "x") 5 (bytes "abc") 5 = Ok 1 <->
   5 = 5 /\ take (length (bytes "ab")) (bytes "abc") = bytes "ab").
Proof.
  split; [repeat constructor; discriminate | ].
  apply (exact_match_cstring (bytes "ab") (bytes "x") (bytes "abc") 5 5).
  repeat constructor; discriminate.
Defined.

Lemma exact_loop_no_zero (qs ts : list ascii) :
  Forall (fun c => u8 c <> 0) qs ->
  forall i : Z,
    exact_loop qs ts i = Ok 0 \/ exists x, exact_loop qs ts i = Err (OutOfBounds x).
Proof.
  induction qs as [ | q qs IH]; intros Hqs i.
  - right. exists i. reflexivity.
  - apply Forall_cons in Hqs as [Hq Hqs]. cbn [exact_loop].
    destruct (Z.eqb_spec (u8 q) 0) as [Hz | _]; [contradiction | ].
    destruct (read_cases ts i) as [[t ->] | ->]; cbn [mbind result_bind];
      [ | right; eexists; reflexivity].
    destruct (u8 q =? u8 t); [apply IH; exact Hqs | left; reflexivity].
Qed.

(** Without a zero byte in [qs], [exact_match] never reports a match: it
    returns 0, or the loop leaves an array. *)
Theorem exact_match_needs_terminator (qs ts : list ascii) (m n : Z) :
  Forall (fun c => u8 c <> 0) qs ->
  exact_match qs m ts n = Ok 0 \/
  exists x, exact_match qs m ts n = Err (OutOfBounds x).
Proof.
  intros Hqs. unfold exact_match.
  destruct (m =? n); [ | left; reflexivity].
  apply exact_loop_no_zero. exact Hqs.
Qed.

Lemma exact_match_needs_terminator_witness :
  Forall (fun c => u8 c <> 0) (bytes "ab") /\
  (exact_match (bytes "ab") 2 (bytes "ab") 2 = Ok 0 \/
   exists x, exact_match (bytes "ab") 2 (bytes "ab") 2 = Err (OutOfBounds x)).
Proof.
  split; [repeat constructor; discriminate | ].
  apply (exact_match_needs_terminator (bytes "ab") (bytes "ab") 2 2).
  repeat constructor; discriminate.
Defined.

Lemma exact_loop_self (l : list ascii) (d : nat) :
  forall i : nat,
    (exists c, l !! (i + d)%nat = Some c /\ u8 c = 0) ->
    exact_loop (drop i l) l (Z.of_nat i) = Ok 1.
Proof.
  induction d as [ | d IH]; intros i (c & Hc & Hz).
  - rewrite Nat.add_0_r in Hc. rewrite (drop_S _ _ _ Hc). cbn [exact_loop].
    rewrite Hz. reflexivity.
  - destruct (lookup_lt_is_Some_2 l i) as [q Hq];
      [apply lookup_lt_Some in Hc; lia | ].
    rewrite (drop_S _ _ _ Hq). cbn [exact_loop].
    destruct (u8 q =? 0); [reflexivity | ].
    rewrite (read_lookup _ _ _ Hq). cbn [mbind result_bind].
    rewrite Z.eqb_refl.
    replace (Z.of_nat i + 1) with (Z.of_nat (S i)) by lia.
    apply IH. exists c. split; [ | exact Hz].
    replace (S i + d)%nat with (i + S d)%nat by lia. exact Hc.
Qed.

(** [normalize] and [exact_match] together: whenever a file can be
    normalized, [main -t 0] reports an exact match of the file with
    itself. *)
Theorem main_exact_same_file (fuel : nat) (k P : Z) (file : list ascii)
    (q : buffer * Z) :
  normalize file (Z.of_nat (length file)) = Ok q ->
  main fuel 0 k P file file = Ok (0, [OutExact true]).
Proof.
  intros Hq. unfold main. rewrite Hq. cbn [mbind result_bind].
  destruct q as [buf' j].
  destruct (normalize_ok_inv file buf' (length file) j) as (_ & _ & _ & Hz & _);
    [lia | exact Hq | ].
  cbn [fst snd]. unfold exact_match. rewrite Z.eqb_refl.
  pose proof (exact_loop_self buf'
                (length (normalized (Z.of_nat (length file)) 0 false
                           (take (length file) file))) 0) as Hself.
  change (Z.of_nat 0) with 0 in Hself. rewrite drop_0 in Hself.
  rewrite Hself; [reflexivity | ].
  exists (chr 0). split; [exact Hz | reflexivity].
Qed.

Lemma main_exact_same_file_witness :
  normalize (bytes "Ab  c") (Z.of_nat (length (bytes "Ab  c")))
  = Ok (bytes "ab c" ++ [chr 0], 4) /\
  main 0 0 20 BIG_PRIME (bytes "Ab  c") (bytes "Ab  c") = Ok (0, [OutExact true]).
Proof.
  split; [reflexivity | ].
  apply (main_exact_same_file 0 20 BIG_PRIME (bytes "Ab  c")
           (bytes "ab c" ++ [chr 0], 4)).
  reflexivity.
Defined.

(** ** The matchers on buffers with room *)

Lemma read_ok_inv (buf : list ascii) (i : nat) (v : Z) :
  read buf (Z.of_nat i) = Ok v -> exists c, buf !! i = Some c /\ u8 c = v.
Proof.
  unfold read, buffer. destruct (Z.of_nat i <? 0); [discriminate | ].
  rewrite Nat2Z.id. destruct (buf !! i) as [c | ]; [ | discriminate].
  intros Hv. injection Hv as <-. exists c. split; reflexivity.
Qed.

(** [occurs_at], by list lookups. *)
Lemma occurs_at_lookup (ps ts : list ascii) (k i : nat) :
  (k <= length ps)%nat -> (i + k <= length ts)%nat ->
  occurs_at ps (Z.of_nat k) ts (Z.of_nat i) <->
  (forall x, (x < k)%nat -> ts !! (i + x)%nat = ps !! x).
Proof.
  intros Hps Hts. split.
  - intros Hocc x Hx.
    destruct (Hocc (Z.of_nat x)) as (v & Ht & Hp); [lia | ].
    rewrite <- Nat2Z.inj_add in Ht.
    apply read_ok_inv in Ht as (ct & Hct & Hvt).
    apply read_ok_inv in Hp as (cp & Hcp & Hvp).
    rewrite Hct, Hcp. f_equal. apply u8_inj. congruence.
  - intros Hall x Hx.
    assert (Hx' : x = Z.of_nat (Z.to_nat x)) by lia.
    revert Hx'. generalize (Z.to_nat x). intros x' ->.
    destruct (lookup_lt_is_Some_2 ps x') as [c Hc]; [lia | ].
    exists (u8 c). rewrite <- Nat2Z.inj_add.
    split; apply read_lookup; [ | exact Hc].
    rewrite Hall by lia. exact Hc.
Qed.

Lemma window_of_lookup (ps ts : list ascii) (k i : nat) :
  (forall x, (x < k)%nat -> ts !! (i + x)%nat = ps !! x) ->
  take k (drop i ts) = take k ps.
Proof.
  intros Hall. apply list_eq. intros x.
  destruct (Nat.lt_ge_cases x k) as [Hx | Hx].
  - rewrite !lookup_take_lt by exact Hx. rewrite lookup_drop. apply Hall, Hx.
  - rewrite !lookup_take_ge by exact Hx. reflexivity.
Qed.

Lemma substr_inner_spec (ps ts : list ascii) (k i : nat) :
  (k <= length ps)%nat -> (i + k <= length ts)%nat ->
  forall (cnt j : nat),
    (j + cnt = k)%nat ->
    exists b,
      substr_inner ps (Z.of_nat k) ts (Z.of_nat i) cnt (Z.of_nat j) = Ok b /\
      (b = true <->
       (0 < cnt)%nat /\
       forall x, (j <= x < k)%nat -> ts !! (i + x)%nat = ps !! x).
Proof.
  intros Hps Hts. induction cnt as [ | cnt IH]; intros j Hj.
  - exists false. split; [reflexivity | ]. split; [discriminate | lia].
  - destruct (lookup_lt_is_Some_2 ts (i + j)) as [t Ht]; [lia | ].
    destruct (lookup_lt_is_Some_2 ps j) as [p Hp]; [lia | ].
    cbn [substr_inner]. rewrite <- Nat2Z.inj_add.
    rewrite (read_lookup _ _ _ Ht), (read_lookup _ _ _ Hp).
    cbn [mbind result_bind].
    destruct (Z.eqb_spec (u8 t) (u8 p)) as [Heq | Hne].
    + apply u8_inj in Heq as ->.
      replace (Z.of_nat j + 1) with (Z.of_nat (S j)) by lia.
      destruct (Z.eqb_spec (Z.of_nat (S j)) (Z.of_nat k)) as [Hlast | Hmore].
      * exists true. split; [reflexivity | ].
        split; [ | reflexivity]. intros _. split; [lia | ].
        intros x Hx. replace x with j by lia. congruence.
      * destruct (IH (S j)) as (b & Hrun & Hb); [lia | ].
        exists b. split; [exact Hrun | ]. rewrite Hb. split.
        -- intros [_ Hall]. split; [lia | ]. intros x Hx.
           destruct (Nat.eq_dec x j) as [-> | Hxj]; [congruence | apply Hall; lia].
        -- intros [_ Hall]. split; [lia | ]. intros x Hx. apply Hall. lia.
    + exists false. split; [reflexivity | ].
      split; [discriminate | ]. intros [_ Hall].
      specialize (Hall j ltac:(lia)). congruence.
Qed.

Lemma substr_outer_spec (ps ts : list ascii) (k : nat) :
  (0 < k)%nat -> (k <= length ps)%nat ->
  forall (cnt i : nat),
    (i + cnt + k <= S (length ts))%nat ->
    exists r,
      substr_outer ps (Z.of_nat k) ts cnt (Z.of_nat i) = Ok r /\
      (r = 0 \/ r = 1) /\
      (r = 1 <->
       exists i', (i <= i' < i + cnt)%nat /\
                  forall x, (x < k)%nat -> ts !! (i' + x)%nat = ps !! x).
Proof.
  intros Hk Hps. induction cnt as [ | cnt IH]; intros i Hlen.
  - exists 0. split; [reflexivity | split; [left; reflexivity | ]].
    split; [discriminate | ]. intros (i' & Hi' & _). lia.
  - cbn [substr_outer]. rewrite Nat2Z.id.
    destruct (substr_inner_spec ps ts k i Hps ltac:(lia) k 0 ltac:(lia))
      as (b & Hrun & Hb).
    change (Z.of_nat 0) with 0 in Hrun. rewrite Hrun. cbn [mbind result_bind].
    destruct b.
    + exists 1. split; [reflexivity | split; [right; reflexivity | ]].
      split; [ | reflexivity]. intros _.
      destruct Hb as [Hb _]. destruct (Hb eq_refl) as [_ Hall].
      exists i. split; [lia | ]. intros x Hx. apply Hall. lia.
    + replace (Z.of_nat i + 1) with (Z.of_nat (S i)) by lia.
      destruct (IH (S i)) as (r & Hr & Hr01 & Hiff); [lia | ].
      exists r. split; [exact Hr | split; [exact Hr01 | ]].
      rewrite Hiff. split.
      * intros (i' & Hi' & Hall). exists i'. split; [lia | exact Hall].
      * intros (i' & Hi' & Hall).
        destruct (Nat.eq_dec i' i) as [-> | Hne].
        -- destruct Hb as [_ Hb]. discriminate Hb.
           split; [lia | ]. intros x Hx. apply Hall. lia.
        -- exists i'. split; [lia | exact Hall].
Qed.

(** [simple_substr_match] on a target that has [k - 1] bytes of room
    behind its [n] bytes: the run stays inside both arrays, returns 0 or
    1, and returns 1 exactly when the chunk occurs at a position below
    [n], its last bytes possibly in the room behind index [n]. *)
Theorem simple_substr_match_with_room (ps ts : list ascii) (k n : nat) :
  (0 < k)%nat -> (k <= length ps)%nat -> (n + k <= S (length ts))%nat ->
  exists r,
    simple_substr_match ps (Z.of_nat k) ts (Z.of_nat n) = Ok r /\
    (r = 0 \/ r = 1) /\
    (r = 1 <->
     exists i, (i < n)%nat /\ occurs_at ps (Z.of_nat k) ts (Z.of_nat i)).
Proof.
  intros Hk Hps Hts. unfold simple_substr_match. rewrite Nat2Z.id.
  destruct (substr_outer_spec ps ts k Hk Hps n 0) as (r & Hr & Hr01 & Hiff);
    [lia | ].
  exists r. split; [exact Hr | split; [exact Hr01 | ]].
  rewrite Hiff. split; intros (i & Hi & Hocc); exists i; (split; [lia | ]).
  - apply occurs_at_lookup; [lia | lia | exact Hocc].
  - apply occurs_at_lookup; [lia | lia | exact Hocc].
Qed.

Lemma simple_substr_match_with_room_witness :
  (0 < 2)%nat /\ (2 <= length (bytes "ab"))%nat /\
  (2 + 2 <= S (length (bytes "cab")))%nat /\
  exists r,
    simple_substr_match (bytes "ab") (Z.of_nat 2) (bytes "cab") (Z.of_nat 2) = Ok r /\
    (r = 0 \/ r = 1) /\
    (r = 1 <->
     exists i, (i < 2)%nat /\
               occurs_at (bytes "ab") (Z.of_nat 2) (bytes "cab") (Z.of_nat i)).
Proof.
  split; [lia | split; [simpl; lia | split; [simpl; lia | ]]].
  apply (simple_substr_match_with_room (bytes "ab") (bytes "cab") 2 2);
    simpl; lia.
Defined.

Lemma substr_outer_empty_chunk (ps ts : list ascii) (k : Z) :
  k <= 0 -> forall (cnt : nat) (i : Z), substr_outer ps k ts cnt i = Ok 0.
Proof.
  intros Hk. induction cnt as [ | cnt IH]; intros i; [reflexivity | ].
  cbn [substr_outer]. replace (Z.to_nat k) with 0%nat by lia.
  cbn [substr_inner mbind result_bind]. apply IH.
Qed.

(** An empty chunk is never found: with [k <= 0], [simple_substr_match]
    reads nothing and returns 0, whatever the arrays and [n] are. *)
Theorem simple_substr_match_empty_chunk (ps ts : list ascii) (k n : Z) :
  k <= 0 -> simple_substr_match ps k ts n = Ok 0.
Proof.
  intros Hk. unfold simple_substr_match.
  apply substr_outer_empty_chunk. exact Hk.
Qed.

Lemma simple_substr_match_empty_chunk_witness :
  0 <= 0 /\ simple_substr_match (bytes "ab") 0 (bytes "cab") 3 = Ok 0.
Proof.
  split; [lia | ].
  apply (simple_substr_match_empty_chunk (bytes "ab") (bytes "cab") 0 3). lia.
Defined.

(** ** [rabin_karp_match] on the windows it visits *)

Lemma verify_loop_spec (ps ts : list ascii) (k i : nat) :
  (k <= length ps)%nat -> (i + k <= length ts)%nat ->
  forall (cnt j : nat),
    (j + cnt = k)%nat ->
    exists j',
      verify_loop ps ts (Z.of_nat i) cnt (Z.of_nat j) = Ok (Z.of_nat j') /\
      (j' = k <->
       forall x, (j <= x < k)%nat -> ts !! (i + x)%nat = ps !! x).
Proof.
  intros Hps Hts. induction cnt as [ | cnt IH]; intros j Hj.
  - exists j. split; [reflexivity | ]. split; [intros _ x Hx; lia | lia].
  - destruct (lookup_lt_is_Some_2 ts (i + j)) as [t Ht]; [lia | ].
    destruct (lookup_lt_is_Some_2 ps j) as [p Hp]; [lia | ].
    cbn [verify_loop]. rewrite <- Nat2Z.inj_add.
    rewrite (read_lookup _ _ _ Ht), (read_lookup _ _ _ Hp).
    cbn [mbind result_bind].
    destruct (Z.eqb_spec (u8 t) (u8 p)) as [Heq | Hne].
    + apply u8_inj in Heq as ->.
      replace (Z.of_nat j + 1) with (Z.of_nat (S j)) by lia.
      destruct (IH (S j)) as (j' & Hrun & Hj'); [lia | ].
      exists j'. split; [exact Hrun | ]. rewrite Hj'. split.
      * intros Hall x Hx.
        destruct (Nat.eq_dec x j) as [-> | Hxj]; [congruence | apply Hall; lia].
      * intros Hall x Hx. apply Hall. lia.
    + exists j. split; [reflexivity | ]. split; [lia | ].
      intros Hall. specialize (Hall j ltac:(lia)). congruence.
Qed.

Section RabinKarpScan.

Variable P : Z.
Hypothesis P_pos : 0 < P.
Hypothesis P_fits : 256 * P < 2 ^ 63.

(** The scan either holds the hash of the window it is at, or a hash
    equal to [ps_hash] that it no longer rolls; in the second case every
    later position is compared byte by byte. *)
Lemma scan_loop_exact (fuel : nat) (ps ts : list ascii) (k : nat) :
  (0 < k)%nat -> (k <= length ps)%nat ->
  forall (cnt i : nat) (st : scan_state),
    (i + cnt + k <= length ts)%nat ->
    ts_hash st = horner P 0 (take k (drop i ts)) \/
    ts_hash st = horner P 0 (take k ps) ->
    response st = 0 \/ response st = 1 ->
    exists st',
      scan_loop fuel P ps (Z.of_nat k) ts (horner P 0 (take k ps))
                (base_exp P (Z.of_nat k)) cnt (Z.of_nat i) st = Ok st' /\
      (response st' = 0 \/ response st' = 1) /\
      (response st' = 1 <->
       response st = 1 \/
       exists i', (i <= i' < i + cnt)%nat /\
                  forall x, (x < k)%nat -> ts !! (i' + x)%nat = ps !! x).
Proof.
  intros Hk Hps. induction cnt as [ | cnt IH]; intros i st Hlen Hinv Hresp.
  - exists st. split; [reflexivity | split; [exact Hresp | ]].
    split; [intros H1; left; exact H1 | ].
    intros [H1 | (i' & Hi' & _)]; [exact H1 | lia].
  - cbn [scan_loop]. unfold scan_body.
    rewrite print_hash_ts_hash.
    replace (Z.of_nat i + 1) with (Z.of_nat (S i)) by lia.
    destruct (Z.eqb_spec (ts_hash st) (horner P 0 (take k ps))) as [Heq | Hne].
    + rewrite Nat2Z.id.
      destruct (verify_loop_spec ps ts k i Hps ltac:(lia) k 0 ltac:(lia))
        as (j' & Hrun & Hj').
      change (Z.of_nat 0) with 0 in Hrun. rewrite Hrun.
      cbn [mbind result_bind].
      destruct (Z.eqb_spec (Z.of_nat j') (Z.of_nat k)) as [Hfull | Hpart].
      * destruct (IH (S i)
                    (ScanState (printed (print_hash st)) 1
                       (ts_hash st) (output (print_hash st))))
          as (st' & Hst' & H01 & Hiff).
        -- lia.
        -- right. exact Heq.
        -- right. reflexivity.
        -- exists st'. split; [exact Hst' | split; [exact H01 | ]].
           rewrite Hiff. cbn [response]. split.
           ++ intros _. right. exists i. split; [lia | ].
              intros x Hx. apply Hj'; lia.
           ++ intros _. left. reflexivity.
      * destruct (IH (S i) (print_hash st)) as (st' & Hst' & H01 & Hiff).
        -- lia.
        -- right. rewrite print_hash_ts_hash. exact Heq.
        -- rewrite print_hash_response. exact Hresp.
        -- exists st'. split; [exact Hst' | split; [exact H01 | ]].
           rewrite Hiff, print_hash_response. split.
           ++ intros [H1 | (i' & Hi' & Hall)]; [left; exact H1 | ].
              right. exists i'. split; [lia | exact Hall].
           ++ intros [H1 | (i' & Hi' & Hall)]; [left; exact H1 | ].
              destruct (Nat.eq_dec i' i) as [-> | Hi].
              ** exfalso. apply Hpart. f_equal. apply Hj'.
                 intros x Hx. apply Hall. lia.
              ** right. exists i'. split; [lia | exact Hall].
    + destruct Hinv as [Hwin | Hstuck]; [ | contradiction].
      rewrite Hwin, (roll_horner P P_pos P_fits) by lia.
      cbn [mbind result_bind].
      destruct (IH (S i)
                  (ScanState (printed (print_hash st)) (response (print_hash st))
                     (horner P 0 (take k (drop (S i) ts)))
                     (output (print_hash st))))
        as (st' & Hst' & H01 & Hiff).
      * lia.
      * left. reflexivity.
      * cbn [response]. rewrite print_hash_response. exact Hresp.
      * exists st'. split; [exact Hst' | split; [exact H01 | ]].
        rewrite Hiff. cbn [response]. rewrite print_hash_response. split.
        -- intros [H1 | (i' & Hi' & Hall)]; [left; exact H1 | ].
           right. exists i'. split; [lia | exact Hall].
        -- intros [H1 | (i' & Hi' & Hall)]; [left; exact H1 | ].
           destruct (Nat.eq_dec i' i) as [-> | Hi].
           ++ exfalso. apply Hne. rewrite Hwin. f_equal.
              apply window_of_lookup. exact Hall.
           ++ right. exists i'. split; [lia | exact Hall].
Qed.

Lemma rabin_karp_match_run (fuel : nat) (ps ts : list ascii) (k n : nat) :
  (0 < k)%nat -> (k <= length ps)%nat -> (k <= n)%nat -> (n <= length ts)%nat ->
  exists r out,
    rabin_karp_match fuel P ps (Z.of_nat k) ts (Z.of_nat n) = Ok (r, out) /\
    (r = 0 \/ r = 1) /\
    (r = 1 <->
     exists i, (i < n - k)%nat /\
               forall x, (x < k)%nat -> ts !! (i + x)%nat = ps !! x).
Proof.
  intros Hk Hps Hkn Hn. unfold rabin_karp_match.
  destruct (Z.eqb_spec P 0) as [HP0 | _]; [lia | ]. cbn [andb].
  unfold init_hashes. rewrite Nat2Z.id.
  pose proof (init_loop_horner P ps ts k 0 0 0) as Hinit.
  change (Z.of_nat 0) with 0 in Hinit. rewrite !drop_0 in Hinit.
  rewrite Hinit by (simpl; lia). cbn [mbind result_bind fst snd].
  replace (Z.to_nat (Z.of_nat n - Z.of_nat k)) with (n - k)%nat by lia.
  destruct (scan_loop_exact fuel ps ts k Hk Hps (n - k) 0
              (ScanState 0 0 (horner P 0 (take k ts))
                 [OutHashLn (horner P 0 (take k ps))]))
    as (st' & Hst' & H01 & Hiff).
  - lia.
  - left. rewrite drop_0. reflexivity.
  - left. reflexivity.
  - change (Z.of_nat 0) with 0 in Hst'. rewrite Hst'.
    cbn [mbind result_bind].
    exists (response st'), (output st').
    split; [reflexivity | split; [exact H01 | ]].
    rewrite Hiff. cbn [response]. split.
    + intros [H1 | (i & Hi & Hall)]; [discriminate H1 | ].
      exists i. split; [lia | exact Hall].
    + intros (i & Hi & Hall). right. exists i. split; [lia | exact Hall].
Qed.

(** What [rabin_karp_match] computes.  For a chunk of [k > 0] bytes and a
    target of [n >= k] bytes inside their arrays, the run stays inside
    both arrays, returns 0 or 1, and returns 1 exactly when the chunk
    occurs at a position [i < n - k]: after a hash equality the hash is no
    longer rolled, but every later position is then compared byte by byte,
    so that no window before the last one is missed. *)
Theorem rabin_karp_match_exact (fuel : nat) (ps ts : list ascii) (k n : nat) :
  (0 < k)%nat -> (k <= length ps)%nat -> (k <= n)%nat -> (n <= length ts)%nat ->
  exists r out,
    rabin_karp_match fuel P ps (Z.of_nat k) ts (Z.of_nat n) = Ok (r, out) /\
    (r = 0 \/ r = 1) /\
    (r = 1 <->
     exists i, (i < n - k)%nat /\ occurs_at ps (Z.of_nat k) ts (Z.of_nat i)).
Proof.
  intros Hk Hps Hkn Hn.
  destruct (rabin_karp_match_run fuel ps ts k n Hk Hps Hkn Hn)
    as (r & out & Hrun & H01 & Hiff).
  exists r, out. split; [exact Hrun | split; [exact H01 | ]].
  rewrite Hiff.
  split; intros (i & Hi & Hocc); exists i; (split; [exact Hi | ]);
    apply occurs_at_lookup; (lia || exact Hocc).
Qed.

(** The two matchers agree: on such inputs [rabin_karp_match] returns
    what [simple_substr_match] returns for the first [n - k] positions of
    the target. *)
Theorem rabin_karp_match_is_simple_match (fuel : nat) (ps ts : list ascii)
    (k n : nat) :
  (0 < k)%nat -> (k <= length ps)%nat -> (k <= n)%nat -> (n <= length ts)%nat ->
  fst <$> rabin_karp_match fuel P ps (Z.of_nat k) ts (Z.of_nat n)
  = simple_substr_match ps (Z.of_nat k) ts (Z.of_nat n - Z.of_nat k).
Proof.
  intros Hk Hps Hkn Hn.
  destruct (rabin_karp_match_run fuel ps ts k n Hk Hps Hkn Hn)
    as (r & out & Hrun & H01 & Hiff).
  unfold simple_substr_match.
  replace (Z.to_nat (Z.of_nat n - Z.of_nat k)) with (n - k)%nat by lia.
  destruct (substr_outer_spec ps ts k Hk Hps (n - k) 0) as (r' & Hr' & H01' & Hiff');
    [lia | ].
  change (Z.of_nat 0) with 0 in Hr'. rewrite Hrun, Hr'.
  cbn [fmap result_fmap fst]. f_equal.
  assert (Hsame : r = 1 <-> r' = 1).
  { rewrite Hiff, Hiff'. split; intros (i & Hi & Hall); exists i;
      (split; [lia | exact Hall]). }
  destruct H01 as [-> | ->], H01' as [-> | ->]; try reflexivity.
  - destruct Hsame as [_ Hs]. specialize (Hs eq_refl). discriminate Hs.
  - destruct Hsame as [Hs _]. specialize (Hs eq_refl). discriminate Hs.
Qed.

End RabinKarpScan.

Lemma rabin_karp_match_exact_witness :
  0 < BIG_PRIME /\ 256 * BIG_PRIME < 2 ^ 63 /\
  (0 < 2)%nat /\ (2 <= length (bytes "ab"))%nat /\ (2 <= 5)%nat /\
  (5 <= length (bytes "xabab"))%nat /\
  exists r out,
    rabin_karp_match 0 BIG_PRIME (bytes "ab") (Z.of_nat 2) (bytes "xabab") (Z.of_nat 5)
    = Ok (r, out) /\
    (r = 0 \/ r = 1) /\
    (r = 1 <->
     exists i, (i < 5 - 2)%nat /\
               occurs_at (bytes "ab") (Z.of_nat 2) (bytes "xabab") (Z.of_nat i)).
Proof.
  split; [reflexivity | split; [reflexivity | ]].
  split; [lia | split; [simpl; lia | split; [lia | split; [simpl; lia | ]]]].
  apply (rabin_karp_match_exact BIG_PRIME); [reflexivity | reflexivity | | | | ];
    simpl; lia.
Defined.

Lemma rabin_karp_match_is_simple_match_witness :
  0 < BIG_PRIME /\ 256 * BIG_PRIME < 2 ^ 63 /\
  (0 < 2)%nat /\ (2 <= length (bytes "ab"))%nat /\ (2 <= 5)%nat /\
  (5 <= length (bytes "xabab"))%nat /\
  fst <$> rabin_karp_match 0 BIG_PRIME (bytes "ab") (Z.of_nat 2) (bytes "xabab") (Z.of_nat 5)
  = simple_substr_match (bytes "ab") (Z.of_nat 2) (bytes "xabab") (Z.of_nat 5 - Z.of_nat 2).
Proof.
  split; [reflexivity | split; [reflexivity | ]].
  split; [lia | split; [simpl; lia | split; [lia | split; [simpl; lia | ]]]].
  apply (rabin_karp_match_is_simple_match BIG_PRIME);
    [reflexivity | reflexivity | | | | ]; simpl; lia.
Defined.

(** ** The modular helpers and the window hash *)

Section HashValues.

Variable P : Z.
Hypothesis P_pos : 0 < P.
Hypothesis P_fits : 256 * P < 2 ^ 63.

(** [madd] on operands in [0, P): no overflow, a result of the residue of
    [a + b], in [0, P] with [P] itself reached when [a + b = P]. *)
Theorem madd_residue (a b : Z) :
  0 <= a < P -> 0 <= b < P ->
  0 <= madd P a b <= P /\
  madd P a b mod P = (a + b) mod P /\
  (madd P a b = P <-> a + b = P).
Proof.
  intros Ha Hb.
  destruct (madd_upto_modulus P P_pos P_fits a b Ha Hb) as [Hr Hm].
  split; [exact Hr | split; [exact Hm | ]].
  unfold madd. rewrite !(wrap64_small (a + b)) by lia.
  destruct (Z.gtb_spec (a + b) P); [rewrite wrap64_small by lia | ]; lia.
Qed.

(** [mdel] on operands in [0, P): a result of the residue of [a - b], in
    (0, P]: never 0, and [P] exactly when [a = b]. *)
Theorem mdel_residue (a b : Z) :
  0 <= a < P -> 0 <= b < P ->
  0 < mdel P a b <= P /\
  mdel P a b mod P = (a - b) mod P /\
  (mdel P a b = P <-> a = b).
Proof.
  intros Ha Hb.
  destruct (mdel_upto_modulus P P_pos P_fits a b Ha Hb) as [Hr Hm].
  split; [exact Hr | split; [exact Hm | ]].
  unfold mdel. destruct (Z.gtb_spec a b).
  - rewrite wrap64_small by lia. lia.
  - rewrite (wrap64_small (a + P)) by lia. rewrite wrap64_small by lia. lia.
Qed.

(** [mmul] on non-negative operands whose product fits a [long long]: the
    product modulo [P], in [0, P). *)
Theorem mmul_residue (a b : Z) :
  0 <= a -> 0 <= b -> a * b < 2 ^ 63 ->
  mmul P a b = (a * b) mod P /\ 0 <= mmul P a b < P.
Proof.
  intros Ha Hb Hab. rewrite (mmul_mod P P_pos a b Ha Hb Hab).
  split; [reflexivity | apply Z.mod_pos_bound; exact P_pos].
Qed.

(** The loop that computes [base_exp]: for [k >= 1] it leaves a value of
    the residue of [256^(k-1)], below [P] as soon as [k >= 2]. *)
Theorem base_exp_power (k : Z) :
  1 <= k ->
  base_exp P k mod P = 256 ^ (k - 1) mod P /\
  0 <= base_exp P k /\ (2 <= k -> base_exp P k < P).
Proof.
  intros Hk.
  assert (Hk' : k = Z.of_nat (S (Z.to_nat (k - 1)))) by lia.
  destruct (base_exp_spec P P_pos P_fits (Z.to_nat (k - 1))) as [[Hlo _] Hmod].
  rewrite <- Hk' in Hlo, Hmod.
  replace (Z.of_nat (Z.to_nat (k - 1))) with (k - 1) in Hmod by lia.
  split; [exact Hmod | split; [exact Hlo | ]].
  intros Hk2. unfold base_exp.
  destruct (Z.to_nat (k - 1)) as [ | m] eqn:Hm; [lia | ].
  destruct (base_exp_spec P P_pos P_fits m) as [[Hlo' Hhi'] _].
  unfold base_exp in Hlo', Hhi'.
  replace (Z.to_nat (Z.of_nat (S m) - 1)) with m in Hlo', Hhi' by lia.
  unfold hash_max in Hhi'.
  change (Nat.iter (S m) (fun e => mmul P base e) 1)
    with (mmul P base (Nat.iter m (fun e => mmul P base e) 1)).
  set (e := Nat.iter m (fun e => mmul P base e) 1) in *.
  unfold base. rewrite (mmul_mod P P_pos) by lia.
  apply Z.mod_pos_bound. exact P_pos.
Qed.

(** The window hash from scratch: on a buffer of at least [k] bytes it is
    defined, lies in [0, max P 254], and has the residue of the polynomial
    [sum byte_i * 256^(k-1-i)] that [poly] evaluates. *)
Theorem hash_window_value (buf : list ascii) (k : nat) :
  (k <= length buf)%nat ->
  exists h,
    hash_window P buf (Z.of_nat k) = Ok h /\
    0 <= h <= Z.max P 254 /\
    h mod P = poly 0 (take k buf) mod P.
Proof.
  intros Hk. exists (horner P 0 (take k buf)).
  assert (H0 : 0 <= 0 <= hash_max P) by (unfold hash_max; lia).
  split; [apply hash_window_horner; exact Hk | split].
  - apply (horner_range P P_pos P_fits). exact H0.
  - apply (horner_mod P P_pos P_fits); [exact H0 | reflexivity].
Qed.

Lemma horner_small (l : list ascii) :
  forall h0 : Z,
    0 <= h0 -> (h0 + 1) * 256 ^ Z.of_nat (length l) <= P ->
    horner P h0 l = poly h0 l.
Proof.
  induction l as [ | c l IH]; intros h0 Hh0 Hsmall; [reflexivity | ].
  cbn [length] in Hsmall. rewrite Nat2Z.inj_succ, Z.pow_succ_r in Hsmall by lia.
  pose proof (u8_range c) as Hc.
  assert (Hpos : 0 < 256 ^ Z.of_nat (length l)) by (apply Z.pow_pos_nonneg; lia).
  assert (Hstep : hash_step P h0 (u8 c) = 256 * h0 + u8 c).
  { unfold hash_step, base.
    rewrite (mmul_mod P P_pos) by nia.
    rewrite Z.mod_small by nia.
    unfold madd. rewrite !(wrap64_small (256 * h0 + u8 c)) by nia.
    destruct (Z.gtb_spec (256 * h0 + u8 c) P); [nia | reflexivity]. }
  change (horner P h0 (c :: l)) with (horner P (hash_step P h0 (u8 c)) l).
  change (poly h0 (c :: l)) with (poly (256 * h0 + u8 c) l).
  rewrite Hstep. apply IH; nia.
Qed.

Lemma poly_bound (l : list ascii) : 0 <= poly 0 l < 256 ^ Z.of_nat (length l).
Proof.
  induction l as [ | c l IH]; [cbn; lia | ].
  change (poly 0 (c :: l)) with (poly (u8 c) l).
  rewrite poly_shift. cbn [length].
  rewrite Nat2Z.inj_succ, Z.pow_succ_r by lia.
  pose proof (u8_range c). nia.
Qed.

Lemma poly_inj (l1 : list ascii) :
  forall l2, length l1 = length l2 -> poly 0 l1 = poly 0 l2 -> l1 = l2.
Proof.
  induction l1 as [ | a l1 IH]; intros [ | b l2] Hlen Hpoly; try discriminate Hlen.
  - reflexivity.
  - injection Hlen as Hlen.
    change (poly 0 (a :: l1)) with (poly (u8 a) l1) in Hpoly.
    change (poly 0 (b :: l2)) with (poly (u8 b) l2) in Hpoly.
    rewrite (poly_shift l1), (poly_shift l2), Hlen in Hpoly.
    pose proof (poly_bound l1) as H1. pose proof (poly_bound l2) as H2.
    rewrite Hlen in H1.
    pose proof (u8_range a). pose proof (u8_range b).
    assert (Hab : u8 a = u8 b) by nia.
    rewrite Hab in Hpoly. f_equal; [apply u8_inj, Hab | ].
    apply IH; [exact Hlen | lia].
Qed.

(** Short windows do not collide.  When [256^k <= P], the hash of a
    [k]-byte window is the number its bytes spell in base 256, and two
    windows of the same hash hold the same bytes. *)
Theorem hash_window_short_window (a b : list ascii) (k : nat) :
  256 ^ Z.of_nat k <= P -> (k <= length a)%nat -> (k <= length b)%nat ->
  hash_window P a (Z.of_nat k) = Ok (poly 0 (take k a)) /\
  (hash_window P a (Z.of_nat k) = hash_window P b (Z.of_nat k) ->
   take k a = take k b).
Proof.
  intros Hsmall Ha Hb.
  assert (Hval : forall buf : list ascii, (k <= length buf)%nat ->
            hash_window P buf (Z.of_nat k) = Ok (poly 0 (take k buf))).
  { intros buf Hbuf. rewrite hash_window_horner by exact Hbuf.
    f_equal. apply horner_small; [lia | ].
    rewrite length_take_le by exact Hbuf. lia. }
  split; [apply Hval; exact Ha | ].
  rewrite (Hval a Ha), (Hval b Hb). intros Heq. injection Heq as Heq.
  apply poly_inj; [ | exact Heq].
  rewrite !length_take_le by assumption. reflexivity.
Qed.

End HashValues.

Lemma madd_residue_witness :
  0 < BIG_PRIME /\ 256 * BIG_PRIME < 2 ^ 63 /\
  0 <= 7 < BIG_PRIME /\ 0 <= BIG_PRIME - 7 < BIG_PRIME /\
  (0 <= madd BIG_PRIME 7 (BIG_PRIME - 7) <= BIG_PRIME /\
   madd BIG_PRIME 7 (BIG_PRIME - 7) mod BIG_PRIME = (7 + (BIG_PRIME - 7)) mod BIG_PRIME /\
   (madd BIG_PRIME 7 (BIG_PRIME - 7) = BIG_PRIME <-> 7 + (BIG_PRIME - 7) = BIG_PRIME)).
Proof.
  split; [reflexivity | split; [reflexivity | ]].
  split; [unfold BIG_PRIME; lia | split; [unfold BIG_PRIME; lia | ]].
  apply (madd_residue BIG_PRIME); unfold BIG_PRIME; lia.
Defined.

Lemma mdel_residue_witness :
  0 < BIG_PRIME /\ 256 * BIG_PRIME < 2 ^ 63 /\
  0 <= 7 < BIG_PRIME /\ 0 <= 9 < BIG_PRIME /\
  (0 < mdel BIG_PRIME 7 9 <= BIG_PRIME /\
   mdel BIG_PRIME 7 9 mod BIG_PRIME = (7 - 9) mod BIG_PRIME /\
   (mdel BIG_PRIME 7 9 = BIG_PRIME <-> 7 = 9)).
Proof.
  split; [reflexivity | split; [reflexivity | ]].
  split; [unfold BIG_PRIME; lia | split; [unfold BIG_PRIME; lia | ]].
  apply (mdel_residue BIG_PRIME); unfold BIG_PRIME; lia.
Defined.

Lemma mmul_residue_witness :
  0 < BIG_PRIME /\ 0 <= 256 /\ 0 <= BIG_PRIME /\ 256 * BIG_PRIME < 2 ^ 63 /\
  (mmul BIG_PRIME 256 BIG_PRIME = (256 * BIG_PRIME) mod BIG_PRIME /\
   0 <= mmul BIG_PRIME 256 BIG_PRIME < BIG_PRIME).
Proof.
  split; [reflexivity | split; [lia | split; [unfold BIG_PRIME; lia | ]]].
  split; [reflexivity | ].
  apply (mmul_residue BIG_PRIME); unfold BIG_PRIME; lia.
Defined.

Lemma base_exp_power_witness :
  0 < BIG_PRIME /\ 256 * BIG_PRIME < 2 ^ 63 /\ 1 <= 20 /\
  (base_exp BIG_PRIME 20 mod BIG_PRIME = 256 ^ (20 - 1) mod BIG_PRIME /\
   0 <= base_exp BIG_PRIME 20 /\ (2 <= 20 -> base_exp BIG_PRIME 20 < BIG_PRIME)).
Proof.
  split; [reflexivity | split; [reflexivity | split; [lia | ]]].
  apply (base_exp_power BIG_PRIME); [reflexivity | reflexivity | lia].
Defined.

Lemma hash_window_value_witness :
  0 < BIG_PRIME /\ 256 * BIG_PRIME < 2 ^ 63 /\
  (8 <= length (bytes "abcdefgh"))%nat /\
  exists h,
    hash_window BIG_PRIME (bytes "abcdefgh") (Z.of_nat 8) = Ok h /\
    0 <= h <= Z.max BIG_PRIME 254 /\
    h mod BIG_PRIME = poly 0 (take 8 (bytes "abcdefgh")) mod BIG_PRIME.
Proof.
  split; [reflexivity | split; [reflexivity | split; [simpl; lia | ]]].
  apply (hash_window_value BIG_PRIME); [reflexivity | reflexivity | simpl; lia].
Defined.

Lemma hash_window_short_window_witness :
  0 < BIG_PRIME /\ 256 * BIG_PRIME < 2 ^ 63 /\
  256 ^ Z.of_nat 6 <= BIG_PRIME /\
  (6 <= length (bytes "abcdefgh"))%nat /\ (6 <= length (bytes "abcdefxy"))%nat /\
  (hash_window BIG_PRIME (bytes "abcdefgh") (Z.of_nat 6)
   = Ok (poly 0 (take 6 (bytes "abcdefgh"))) /\
   (hash_window BIG_PRIME (bytes "abcdefgh") (Z.of_nat 6)
    = hash_window BIG_PRIME (bytes "abcdefxy") (Z.of_nat 6) ->
    take 6 (bytes "abcdefgh") = take 6 (bytes "abcdefxy"))).
Proof.
  split; [reflexivity | split; [reflexivity | ]].
  split; [apply Z.leb_le; reflexivity | split; [simpl; lia | split; [simpl; lia | ]]].
  apply (hash_window_short_window BIG_PRIME eq_refl eq_refl
           (bytes "abcdefgh") (bytes "abcdefxy") 6);
    [apply Z.leb_le; reflexivity | simpl; lia | simpl; lia].
Defined.

Lemma init_loop_short_target (P : Z) (ps ts : list ascii) (cnt : nat) :
  forall (n0 : nat) (hp ht : Z),
    (n0 <= length ts < n0 + cnt)%nat -> (length ts < length ps)%nat ->
    init_loop P ps ts cnt (Z.of_nat n0) hp ht
    = Err (OutOfBounds (Z.of_nat (length ts))).
Proof.
  induction cnt as [ | cnt IH]; intros n0 hp ht Hn0 Hps; [lia | ].
  destruct (lookup_lt_is_Some_2 ps n0) as [p Hp]; [lia | ].
  cbn [init_loop]. rewrite (read_lookup _ _ _ Hp). cbn [mbind result_bind].
  destruct (Nat.eq_dec n0 (length ts)) as [-> | Hne].
  - rewrite read_past_end by lia. reflexivity.
  - destruct (lookup_lt_is_Some_2 ts n0) as [t Ht]; [lia | ].
    rewrite (read_lookup _ _ _ Ht). cbn [mbind result_bind].
    replace (Z.of_nat n0 + 1) with (Z.of_nat (S n0)) by lia.
    apply IH; lia.
Qed.

(** A chunk longer than the target array.  When the array of [ts] holds
    fewer than [k] bytes (and that of [ps] more than [ts]), the loop that
    creates the initial hashes reads [ts] at its length: the run stops there,
    whatever [n] is. *)
Theorem rabin_karp_match_short_target (fuel : nat) (P : Z) (ps ts : list ascii)
    (k n : Z) :
  P <> 0 -> Z.of_nat (length ts) < k -> (length ts < length ps)%nat ->
  rabin_karp_match fuel P ps k ts n = Err (OutOfBounds (Z.of_nat (length ts))).
Proof.
  intros HP Hk Hps. unfold rabin_karp_match.
  destruct (Z.eqb_spec P 0) as [HP0 | _]; [contradiction | ]. cbn [andb].
  unfold init_hashes.
  pose proof (init_loop_short_target P ps ts (Z.to_nat k) 0 0 0) as Hinit.
  change (Z.of_nat 0) with 0 in Hinit. rewrite Hinit by lia. reflexivity.
Qed.

Lemma rabin_karp_match_short_target_witness :
  BIG_PRIME <> 0 /\ Z.of_nat (length (bytes "xy")) < 4 /\
  (length (bytes "xy") < length (bytes "abcd"))%nat /\
  rabin_karp_match 0 BIG_PRIME (bytes "abcd") 4 (bytes "xy") 2
  = Err (OutOfBounds (Z.of_nat (length (bytes "xy")))).
Proof.
  split; [discriminate | split; [simpl; lia | split; [simpl; lia | ]]].
  apply (rabin_karp_match_short_target 0 BIG_PRIME (bytes "abcd") (bytes "xy") 4 2);
    [discriminate | simpl; lia | simpl; lia].
Defined.

(** ** The empty chunk *)

Lemma scan_loop_empty_chunk (fuel : nat) (P : Z) (ps ts : list ascii) (e : Z) :
  forall (cnt : nat) (i : Z) (st : scan_state),
    ts_hash st = 0 ->
    exists st',
      scan_loop fuel P ps 0 ts 0 e cnt i st = Ok st' /\
      response st' = match cnt with O => response st | S _ => 1 end.
Proof.
  induction cnt as [ | cnt IH]; intros i st Hst.
  - exists st. split; reflexivity.
  - cbn [scan_loop]. unfold scan_body.
    rewrite print_hash_ts_hash, Hst.
    cbn [Z.eqb Z.to_nat verify_loop mbind result_bind].
    destruct (IH (i + 1)
                (ScanState (printed (print_hash st)) 1 0 (output (print_hash st))))
      as (st' & Hrun & Hresp); [reflexivity | ].
    exists st'. split; [exact Hrun | ].
    rewrite Hresp. destruct cnt; reflexivity.
Qed.

Lemma rabin_karp_match_empty_ok (fuel : nat) (P : Z) (ps ts : list ascii) (n : Z) :
  exists out,
    rabin_karp_match fuel P ps 0 ts n = Ok ((if 0 <? n then 1 else 0), out).
Proof.
  unfold rabin_karp_match. rewrite andb_false_r.
  change (init_hashes P ps 0 ts) with (@Ok (Z * Z) (0, 0)).
  cbn [mbind result_bind fst snd].
  destruct (scan_loop_empty_chunk fuel P ps ts (base_exp P 0) (Z.to_nat (n - 0)) 0
              (ScanState 0 0 0 [OutHashLn 0]))
    as (st' & Hrun & Hresp); [reflexivity | ].
  rewrite Hrun. cbn [mbind result_bind]. exists (output st').
  rewrite Hresp. cbn [response].
  destruct (Z.ltb_spec 0 n).
  - destruct (Z.to_nat (n - 0)) eqn:Hn; [lia | reflexivity].
  - replace (Z.to_nat (n - 0)) with 0%nat by lia. reflexivity.
Qed.

(** The empty chunk is always found by [rabin_karp_match]: with [k = 0]
    both hashes are 0, no byte is read, and the function returns 1 as soon
    as [n > 0], for every modulus - where [simple_substr_match] returns 0. *)
Theorem rabin_karp_match_empty_chunk (fuel : nat) (P : Z) (ps ts : list ascii)
    (n : Z) :
  0 < n ->
  exists out, rabin_karp_match fuel P ps 0 ts n = Ok (1, out).
Proof.
  intros Hn.
  destruct (rabin_karp_match_empty_ok fuel P ps ts n) as (out & Hrun).
  exists out. rewrite Hrun.
  destruct (Z.ltb_spec 0 n); [reflexivity | lia].
Qed.

Lemma rabin_karp_match_empty_chunk_witness :
  0 < 3 /\
  exists out, rabin_karp_match 0 BIG_PRIME (bytes "ab") 0 (bytes "cab") 3 = Ok (1, out).
Proof.
  split; [lia | ].
  apply (rabin_karp_match_empty_chunk 0 BIG_PRIME (bytes "ab") (bytes "cab") 3). lia.
Defined.

(** ** [main] and the chunk size *)

Lemma offset_zero (qdoc : list ascii) : offset qdoc 0 = Ok qdoc.
Proof.
  unfold offset. destruct (Z.leb_spec 0 (Z.of_nat (length qdoc))); [reflexivity | lia].
Qed.

Lemma chunk_loop_zero (mtch : buffer -> result (Z * list event))
    (qdoc : list ascii) (qdoc_len : Z) :
  (forall ps, exists r, mtch ps = Ok r) -> 0 <= qdoc_len ->
  forall (fuel : nat) (num : Z) (out : list event),
    chunk_loop mtch fuel 0 qdoc qdoc_len 0 num out = Err OutOfFuel.
Proof.
  intros Hm Hlen. induction fuel as [ | fuel IH]; intros num out; [reflexivity | ].
  cbn [chunk_loop]. change (0 + 0) with 0.
  destruct (Z.leb_spec 0 qdoc_len); [ | lia].
  rewrite offset_zero. cbn [mbind result_bind].
  destruct (Hm qdoc) as [r ->]. cbn [mbind result_bind]. apply IH.
Qed.

(** A chunk size of 0 is not refused.  Once both documents are normalized,
    [main -k 0] with the naive or the Rabin-Karp matcher never leaves its
    loop over the chunks (no amount of fuel ends the run), and with the
    batch matcher it divides by zero. *)
Theorem main_zero_chunk_size (fuel : nat) (which_algo P : Z)
    (qfile dfile : list ascii) (q d : buffer * Z) :
  normalize qfile (Z.of_nat (length qfile)) = Ok q ->
  normalize dfile (Z.of_nat (length dfile)) = Ok d ->
  (which_algo = 1 \/ which_algo = 2 ->
   main fuel which_algo 0 P qfile dfile = Err OutOfFuel) /\
  (which_algo = 3 -> main fuel which_algo 0 P qfile dfile = Err DivByZero).
Proof.
  intros Hq Hd.
  destruct q as [qdoc qdoc_len].
  destruct (normalize_ok_inv _ _ _ _ (Nat.le_refl _) Hq) as (Hlen & _).
  unfold main. rewrite Hq, Hd. cbn [mbind result_bind fst snd].
  split.
  - intros [-> | ->].
    + rewrite chunk_loop_zero; [reflexivity | | lia].
      intros ps. unfold simple_substr_match.
      rewrite substr_outer_empty_chunk by lia. eexists. reflexivity.
    + rewrite chunk_loop_zero; [reflexivity | | lia].
      intros ps.
      destruct (rabin_karp_match_empty_ok fuel P ps (fst d) (snd d)) as (out & ->).
      eexists. reflexivity.
  - intros ->. reflexivity.
Qed.

Lemma main_zero_chunk_size_witness :
  normalize (bytes "ab c ") (Z.of_nat (length (bytes "ab c ")))
  = Ok (bytes "ab c" ++ [chr 0], 4) /\
  normalize (bytes "xy ") (Z.of_nat (length (bytes "xy ")))
  = Ok (bytes "xy" ++ [chr 0], 2) /\
  main 1000 1 0 BIG_PRIME (bytes "ab c ") (bytes "xy ") = Err OutOfFuel.
Proof.
  split; [reflexivity | split; [reflexivity | ]].
  apply (main_zero_chunk_size 1000 1 BIG_PRIME (bytes "ab c ") (bytes "xy ")
           (bytes "ab c" ++ [chr 0], 4) (bytes "xy" ++ [chr 0], 2));
    [reflexivity | reflexivity | left; reflexivity].
Defined.

(** A chunk size greater than the normalized query.  No chunk fits: with
    any matcher and at least one unit of fuel, [main] matches nothing,
    reads no byte of the target and prints ["0 chunks matched (out of
    0)"]. *)
Theorem main_chunk_longer_than_query (fuel : nat) (which_algo k P : Z)
    (qfile dfile : list ascii) (q d : buffer * Z) :
  normalize qfile (Z.of_nat (length qfile)) = Ok q ->
  normalize dfile (Z.of_nat (length dfile)) = Ok d ->
  snd q < k -> 1 <= which_algo <= 3 ->
  main (S fuel) which_algo k P qfile dfile = Ok (0, [OutStat 0 0]).
Proof.
  intros Hq Hd Hk Halgo.
  destruct q as [qdoc qdoc_len].
  destruct (normalize_ok_inv _ _ _ _ (Nat.le_refl _) Hq) as (Hlen & _).
  cbn [snd] in Hk.
  unfold main. rewrite Hq, Hd. cbn [mbind result_bind fst snd].
  assert (Hquot : Z.quot qdoc_len k = 0) by (apply Z.quot_small; lia).
  assert (Hstat : print_stat 0 qdoc_len k [] = Ok (0, [OutStat 0 0])).
  { unfold print_stat. destruct (Z.eqb_spec k 0); [lia | ].
    rewrite Hquot. reflexivity. }
  assert (Hcases : which_algo = 1 \/ which_algo = 2 \/ which_algo = 3) by lia.
  destruct Hcases as [-> | [-> | ->]].
  - cbn [chunk_loop]. rewrite Z.add_0_l. destruct (Z.leb_spec k qdoc_len); [lia | ].
    cbn [mbind result_bind fst snd]. exact Hstat.
  - cbn [chunk_loop]. rewrite Z.add_0_l. destruct (Z.leb_spec k qdoc_len); [lia | ].
    cbn [mbind result_bind fst snd]. exact Hstat.
  - destruct (Z.eqb_spec k 0); [lia | ]. exact Hstat.
Qed.

Lemma main_chunk_longer_than_query_witness :
  normalize (bytes "ab c ") (Z.of_nat (length (bytes "ab c ")))
  = Ok (bytes "ab c" ++ [chr 0], 4) /\
  normalize (bytes "xy ") (Z.of_nat (length (bytes "xy ")))
  = Ok (bytes "xy" ++ [chr 0], 2) /\
  snd (bytes "ab c" ++ [chr 0], 4) < 20 /\ 1 <= 2 <= 3 /\
  main (S 0) 2 20 BIG_PRIME (bytes "ab c ") (bytes "xy ") = Ok (0, [OutStat 0 0]).
Proof.
  split; [reflexivity | split; [reflexivity | split; [simpl; lia | split; [lia | ]]]].
  apply (main_chunk_longer_than_query 0 2 20 BIG_PRIME (bytes "ab c ") (bytes "xy ")
           (bytes "ab c" ++ [chr 0], 4) (bytes "xy" ++ [chr 0], 2));
    [reflexivity | reflexivity | simpl; lia | lia].
Defined.

Lemma chunk_loop_bound (mtch : buffer -> result (Z * list event))
    (k : Z) (qdoc : list ascii) (qdoc_len : Z) :
  0 < k ->
  forall (fuel : nat) (i num : Z) (out : list event) (m : Z) (out' : list event),
    chunk_loop mtch fuel k qdoc qdoc_len i num out = Ok (m, out') ->
    num <= m <= num + Z.max 0 ((qdoc_len - i) / k).
Proof.
  intros Hk. induction fuel as [ | fuel IH]; intros i num out m out' Hrun;
    [discriminate | ].
  cbn [chunk_loop] in Hrun.
  destruct (Z.leb_spec (i + k) qdoc_len) as [Hfit | Hout].
  - destruct (offset qdoc i) as [ps | err]; [ | discriminate].
    cbn [mbind result_bind] in Hrun.
    destruct (mtch ps) as [r | err]; [ | discriminate].
    cbn [mbind result_bind] in Hrun.
    apply IH in Hrun.
    assert (Hdiv : (qdoc_len - i) / k = (qdoc_len - (i + k)) / k + 1).
    { replace (qdoc_len - i) with (qdoc_len - (i + k) + 1 * k) by ring.
      apply Z.div_add. lia. }
    assert (0 <= (qdoc_len - (i + k)) / k) by (apply Z.div_pos; lia).
    destruct (fst r =? 0); lia.
  - injection Hrun as <- _. lia.
Qed.

(** The statistic never exceeds its total.  With [k > 0] and the naive,
    the Rabin-Karp or the batch matcher, a run of [main] that ends prints
    last a statistic whose number of matched chunks lies between 0 and
    the number of chunks [qdoc_len / k]. *)
Theorem main_matched_at_most_total (fuel : nat) (which_algo k P : Z)
    (qfile dfile : list ascii) (q : buffer * Z) (code : Z) (out : list event) :
  normalize qfile (Z.of_nat (length qfile)) = Ok q ->
  0 < k -> 1 <= which_algo <= 3 ->
  main fuel which_algo k P qfile dfile = Ok (code, out) ->
  exists pre m,
    out = pre ++ [OutStat m (Z.quot (snd q) k)] /\
    0 <= m <= Z.quot (snd q) k.
Proof.
  intros Hq Hk Halgo.
  destruct q as [qdoc qdoc_len].
  destruct (normalize_ok_inv _ _ _ _ (Nat.le_refl _) Hq) as (Hlen & _).
  unfold main. rewrite Hq. cbn [mbind result_bind].
  destruct (normalize dfile (Z.of_nat (length dfile))) as [d | err];
    [ | discriminate].
  cbn [mbind result_bind fst snd].
  rewrite (Z.quot_div_nonneg qdoc_len k) by lia.
  assert (Hpos : 0 <= qdoc_len / k) by (apply Z.div_pos; lia).
  assert (Hloop : forall mtch r,
            chunk_loop mtch fuel k qdoc qdoc_len 0 0 [] = Ok r ->
            0 <= fst r <= qdoc_len / k).
  { intros mtch [m out'] Hrun. apply (chunk_loop_bound mtch k qdoc qdoc_len Hk) in Hrun.
    rewrite Z.sub_0_r in Hrun. cbn [fst]. lia. }
  assert (Hcases : which_algo = 1 \/ which_algo = 2 \/ which_algo = 3) by lia.
  unfold print_stat. rewrite (Z.quot_div_nonneg qdoc_len k) by lia.
  destruct (Z.eqb_spec k 0); [lia | ].
  destruct Hcases as [-> | [-> | ->]].
  - destruct (chunk_loop _ fuel k qdoc qdoc_len 0 0 []) as [r | err] eqn:Hrun;
      [ | discriminate].
    cbn [mbind result_bind]. intros Hout. injection Hout as _ <-.
    exists (snd r), (fst r). split; [reflexivity | exact (Hloop _ _ Hrun)].
  - destruct (chunk_loop _ fuel k qdoc qdoc_len 0 0 []) as [r | err] eqn:Hrun;
      [ | discriminate].
    cbn [mbind result_bind]. intros Hout. injection Hout as _ <-.
    exists (snd r), (fst r). split; [reflexivity | exact (Hloop _ _ Hrun)].
  - intros Hout. injection Hout as _ <-.
    exists [], 0. split; [reflexivity | ]. unfold rabin_karp_batchmatch. lia.
Qed.

Lemma main_matched_at_most_total_witness :
  normalize (bytes "abcd ") (Z.of_nat (length (bytes "abcd ")))
  = Ok (bytes "abcd" ++ [chr 0], 4) /\
  0 < 2 /\ 1 <= 2 <= 3 /\
  main 10 2 2 BIG_PRIME (bytes "abcd ") (bytes "xcdy ")
  = Ok (0, [OutHashLn 24930; OutHashSp 30819; OutHashSp 25444;
            OutHashLn 25444; OutHashSp 30819; OutHashSp 25444; OutStat 1 2]) /\
  exists pre m,
    [OutHashLn 24930; OutHashSp 30819; OutHashSp 25444;
     OutHashLn 25444; OutHashSp 30819; OutHashSp 25444; OutStat 1 2]
    = pre ++ [OutStat m (Z.quot (snd (bytes "abcd" ++ [chr 0], 4)) 2)] /\
    0 <= m <= Z.quot (snd (bytes "abcd" ++ [chr 0], 4)) 2.
Proof.
  split; [reflexivity | split; [lia | split; [lia | split; [reflexivity | ]]]].
  apply (main_matched_at_most_total 10 2 2 BIG_PRIME (bytes "abcd ") (bytes "xcdy ")
           (bytes "abcd" ++ [chr 0], 4) 0);
    [reflexivity | lia | lia | reflexivity].
Defined.

(** ** What [rabin_karp_match] prints *)

Lemma print_hash_cases (st : scan_state) :
  0 <= printed st <= 6 ->
  (printed st < 5 /\
   print_hash st = ScanState (printed st + 1) (response st) (ts_hash st)
                     (output st ++ [OutHashSp (ts_hash st)])) \/
  (printed st = 5 /\
   print_hash st = ScanState 6 (response st) (ts_hash st)
                     (output st ++ [OutNewline])) \/
  (printed st = 6 /\ print_hash st = st).
Proof.
  intros Hp. unfold print_hash, PRINT_RK_HASH.
  destruct (Z.ltb_spec (printed st) 5) as [Hlt | Hge].
  - left. split; [exact Hlt | reflexivity].
  - destruct (Z.eqb_spec (printed st) 5) as [Heq | Hne].
    + right. left. split; [exact Heq | ]. rewrite Heq. reflexivity.
    + right. right. split; [lia | reflexivity].
Qed.

Section RabinKarpOutput.

Variable P : Z.
Hypothesis P_pos : 0 < P.
Hypothesis P_fits : 256 * P < 2 ^ 63.

Variable ps : list ascii.
Variable ts : list ascii.
Variable k : nat.
Hypothesis k_pos : (0 < k)%nat.
Hypothesis k_ps : (k <= length ps)%nat.

(** One iteration of the scan at position [i], on the hash the scan holds
    there: it succeeds, changes the output and [printed] as [print_hash]
    does, and leaves the hash the scan holds at position [i + 1]. *)
Lemma scan_body_step (fuel : nat) (i : nat) (st : scan_state) :
  (S i + k <= length ts)%nat ->
  ((forall j, (j < i)%nat ->
      horner P 0 (take k (drop j ts)) <> horner P 0 (take k ps)) /\
   ts_hash st = horner P 0 (take k (drop i ts))) \/
  ((exists j, (j < i)%nat /\
      horner P 0 (take k (drop j ts)) = horner P 0 (take k ps)) /\
   ts_hash st = horner P 0 (take k ps)) ->
  exists st1,
    scan_body fuel P ps (Z.of_nat k) ts (horner P 0 (take k ps))
              (base_exp P (Z.of_nat k)) (Z.of_nat i) st = Ok st1 /\
    printed st1 = printed (print_hash st) /\
    output st1 = output (print_hash st) /\
    (((forall j, (j < S i)%nat ->
         horner P 0 (take k (drop j ts)) <> horner P 0 (take k ps)) /\
      ts_hash st1 = horner P 0 (take k (drop (S i) ts))) \/
     ((exists j, (j < S i)%nat /\
         horner P 0 (take k (drop j ts)) = horner P 0 (take k ps)) /\
      ts_hash st1 = horner P 0 (take k ps))).
Proof.
  intros Hlen Hinv. unfold scan_body. rewrite print_hash_ts_hash.
  destruct (Z.eqb_spec (ts_hash st) (horner P 0 (take k ps))) as [Heq | Hne].
  - rewrite Nat2Z.id.
    destruct (verify_loop_spec ps ts k i k_ps ltac:(lia) k 0 ltac:(lia))
      as (j' & Hrun & _).
    change (Z.of_nat 0) with 0 in Hrun. rewrite Hrun. cbn [mbind result_bind].
    assert (Hstuck : exists j, (j < S i)%nat /\
              horner P 0 (take k (drop j ts)) = horner P 0 (take k ps)).
    { destruct Hinv as [[_ Hwin] | [(j & Hj & Hjeq) _]].
      - exists i. split; [lia | congruence].
      - exists j. split; [lia | exact Hjeq]. }
    eexists. split; [reflexivity | ].
    destruct (Z.of_nat j' =? Z.of_nat k); cbn [printed output ts_hash];
      rewrite ?print_hash_ts_hash;
      (split; [reflexivity | split; [reflexivity | right; split; assumption]]).
  - destruct Hinv as [[Hbefore Hwin] | [_ Hstuck]]; [ | contradiction].
    rewrite Hwin, (roll_horner P P_pos P_fits) by lia.
    cbn [mbind result_bind].
    eexists. split; [reflexivity | ]. cbn [printed output ts_hash].
    split; [reflexivity | split; [reflexivity | left; split; [ | reflexivity]]].
    intros j Hj. destruct (Nat.eq_dec j i) as [-> | Hji].
    + rewrite <- Hwin. exact Hne.
    + apply Hbefore. lia.
Qed.

(** The items the scan prints over [cnt] positions from [i] on, with [p]
    items printed before: one per position while fewer than 6 were
    printed, the hash the scan holds at that position for the first five,
    then a newline. *)
Lemma scan_loop_trace (fuel : nat) :
  forall (cnt i : nat) (st : scan_state),
    (i + cnt + k <= length ts)%nat ->
    0 <= printed st <= 6 ->
    ((forall j, (j < i)%nat ->
        horner P 0 (take k (drop j ts)) <> horner P 0 (take k ps)) /\
     ts_hash st = horner P 0 (take k (drop i ts))) \/
    ((exists j, (j < i)%nat /\
        horner P 0 (take k (drop j ts)) = horner P 0 (take k ps)) /\
     ts_hash st = horner P 0 (take k ps)) ->
    exists st' ext,
      scan_loop fuel P ps (Z.of_nat k) ts (horner P 0 (take k ps))
                (base_exp P (Z.of_nat k)) cnt (Z.of_nat i) st = Ok st' /\
      output st' = output st ++ ext /\
      Z.of_nat (length ext) = Z.min (printed st + Z.of_nat cnt) 6 - printed st /\
      (forall x ev, ext !! x = Some ev ->
         if printed st + Z.of_nat x <? 5 then
           exists v, ev = OutHashSp v /\
             (((forall j, (j < i + x)%nat ->
                  horner P 0 (take k (drop j ts)) <> horner P 0 (take k ps)) /\
               v = horner P 0 (take k (drop (i + x) ts))) \/
              ((exists j, (j < i + x)%nat /\
                  horner P 0 (take k (drop j ts)) = horner P 0 (take k ps)) /\
               v = horner P 0 (take k ps)))
         else ev = OutNewline).
Proof.
  induction cnt as [ | cnt IH]; intros i st Hlen Hp Hinv.
  - exists st, []. rewrite app_nil_r. cbn [length].
    split; [reflexivity | split; [reflexivity | split; [lia | discriminate]]].
  - cbn [scan_loop].
    destruct (scan_body_step fuel i st ltac:(lia) Hinv)
      as (st1 & Hbody & Hp1 & Ho1 & Hinv1).
    rewrite Hbody. cbn [mbind result_bind].
    replace (Z.of_nat i + 1) with (Z.of_nat (S i)) by lia.
    destruct (print_hash_cases st Hp) as [[Hlt Hph] | [[Heq Hph] | [Heq Hph]]];
      rewrite Hph in Hp1, Ho1; cbn [printed output] in Hp1, Ho1.
    + destruct (IH (S i) st1 ltac:(lia) ltac:(lia) Hinv1)
        as (st' & ext & Hrun & Hout & Hlen' & Hev).
      exists st', (OutHashSp (ts_hash st) :: ext).
      split; [exact Hrun | split; [ | split]].
      * rewrite Hout, Ho1, <- app_assoc. reflexivity.
      * cbn [length]. lia.
      * intros x ev Hx. destruct x as [ | x].
        -- injection Hx as <-. rewrite Z.add_0_r.
           destruct (Z.ltb_spec (printed st) 5); [ | lia].
           exists (ts_hash st). split; [reflexivity | ].
           rewrite Nat.add_0_r. destruct Hinv as [[Hb Hw] | [Hs Hw]];
             [left | right]; (split; [assumption | exact Hw]).
        -- specialize (Hev x ev Hx). rewrite Hp1 in Hev.
           replace (printed st + Z.of_nat (S x)) with (printed st + 1 + Z.of_nat x) by lia.
           replace (i + S x)%nat with (S i + x)%nat by lia. exact Hev.
    + destruct (IH (S i) st1 ltac:(lia) ltac:(lia) Hinv1)
        as (st' & ext & Hrun & Hout & Hlen' & Hev).
      exists st', (OutNewline :: ext).
      split; [exact Hrun | split; [ | split]].
      * rewrite Hout, Ho1, <- app_assoc. reflexivity.
      * cbn [length]. lia.
      * intros x ev Hx. destruct x as [ | x].
        -- injection Hx as <-. rewrite Z.add_0_r.
           destruct (Z.ltb_spec (printed st) 5); [lia | reflexivity].
        -- apply lookup_lt_Some in Hx. cbn [length] in Hx. lia.
    + destruct (IH (S i) st1 ltac:(lia) ltac:(lia) Hinv1)
        as (st' & ext & Hrun & Hout & Hlen' & Hev).
      exists st', ext.
      split; [exact Hrun | split; [ | split]].
      * rewrite Hout, Ho1. reflexivity.
      * lia.
      * intros x ev Hx. apply lookup_lt_Some in Hx. lia.
Qed.

(** What [rabin_karp_match] prints.  For a chunk of [k > 0] bytes and a
    target of [n >= k] bytes inside their arrays, the function returns
    after printing: the hash of the chunk on a line of its own; then, for
    each of the first 5 positions of the scan, the hash the scan holds
    there - the from-scratch hash of the window at that position as long
    as no earlier window had the hash of the chunk, and the hash of the
    chunk from then on, since the hash is no longer rolled after an
    equality; then a newline if the scan has a sixth position; nothing
    else. *)
Theorem rabin_karp_match_prints (fuel : nat) (n : nat) :
  (k <= n)%nat -> (n <= length ts)%nat ->
  exists r ext,
    rabin_karp_match fuel P ps (Z.of_nat k) ts (Z.of_nat n)
    = Ok (r, OutHashLn (horner P 0 (take k ps)) :: ext) /\
    length ext = Nat.min (n - k) 6 /\
    (forall x, (x < Nat.min (n - k) 5)%nat ->
       exists v, ext !! x = Some (OutHashSp v) /\
         (((forall j, (j < x)%nat ->
              horner P 0 (take k (drop j ts)) <> horner P 0 (take k ps)) /\
           v = horner P 0 (take k (drop x ts))) \/
          ((exists j, (j < x)%nat /\
              horner P 0 (take k (drop j ts)) = horner P 0 (take k ps)) /\
           v = horner P 0 (take k ps)))) /\
    ((6 <= n - k)%nat -> ext !! 5%nat = Some OutNewline).
Proof.
  intros Hkn Hn. unfold rabin_karp_match.
  destruct (Z.eqb_spec P 0) as [HP0 | _]; [lia | ]. cbn [andb].
  unfold init_hashes. rewrite Nat2Z.id.
  pose proof (init_loop_horner P ps ts k 0 0 0) as Hinit.
  change (Z.of_nat 0) with 0 in Hinit. rewrite !drop_0 in Hinit.
  rewrite Hinit by (simpl; lia). cbn [mbind result_bind fst snd].
  replace (Z.to_nat (Z.of_nat n - Z.of_nat k)) with (n - k)%nat by lia.
  destruct (scan_loop_trace fuel (n - k) 0
              (ScanState 0 0 (horner P 0 (take k ts))
                 [OutHashLn (horner P 0 (take k ps))]))
    as (st' & ext & Hrun & Hout & Hlen & Hev).
  - lia.
  - cbn [printed]. lia.
  - left. split; [intros j Hj; lia | rewrite drop_0; reflexivity].
  - change (Z.of_nat 0) with 0 in Hrun. rewrite Hrun. cbn [mbind result_bind].
    cbn [printed output] in Hout, Hlen, Hev.
    exists (response st'), ext. rewrite Hout.
    split; [reflexivity | split; [lia | split]].
    + intros x Hx.
      destruct (lookup_lt_is_Some_2 ext x) as [ev Hx']; [lia | ].
      specialize (Hev x ev Hx').
      destruct (Z.ltb_spec (0 + Z.of_nat x) 5); [ | lia].
      destruct Hev as (v & -> & Hv). exists v. split; [exact Hx' | exact Hv].
    + intros H6.
      destruct (lookup_lt_is_Some_2 ext 5) as [ev Hx']; [lia | ].
      specialize (Hev 5%nat ev Hx'). cbn in Hev. rewrite Hx', Hev. reflexivity.
Qed.

End RabinKarpOutput.

Lemma rabin_karp_match_prints_witness :
  0 < BIG_PRIME /\ 256 * BIG_PRIME < 2 ^ 63 /\
  (0 < 2)%nat /\ (2 <= length (bytes "ab"))%nat /\ (2 <= 12)%nat /\
  (12 <= length (bytes "xabyabcdefgh"))%nat /\
  rabin_karp_match 0 BIG_PRIME (bytes "ab") 2 (bytes "xabyabcdefgh") 12
  = Ok (1, [OutHashLn 24930; OutHashSp 30817; OutHashSp 24930; OutHashSp 24930;
            OutHashSp 24930; OutHashSp 24930; OutNewline]) /\
  exists r ext,
    rabin_karp_match 0 BIG_PRIME (bytes "ab") (Z.of_nat 2) (bytes "xabyabcdefgh")
                     (Z.of_nat 12)
    = Ok (r, OutHashLn (horner BIG_PRIME 0 (take 2 (bytes "ab"))) :: ext) /\
    length ext = Nat.min (12 - 2) 6 /\
    (forall x, (x < Nat.min (12 - 2) 5)%nat ->
       exists v, ext !! x = Some (OutHashSp v) /\
         (((forall j, (j < x)%nat ->
              horner BIG_PRIME 0 (take 2 (drop j (bytes "xabyabcdefgh")))
              <> horner BIG_PRIME 0 (take 2 (bytes "ab"))) /\
           v = horner BIG_PRIME 0 (take 2 (drop x (bytes "xabyabcdefgh")))) \/
          ((exists j, (j < x)%nat /\
              horner BIG_PRIME 0 (take 2 (drop j (bytes "xabyabcdefgh")))
              = horner BIG_PRIME 0 (take 2 (bytes "ab"))) /\
           v = horner BIG_PRIME 0 (take 2 (bytes "ab"))))) /\
    ((6 <= 12 - 2)%nat -> ext !! 5%nat = Some OutNewline).
Proof.
  split; [reflexivity | split; [reflexivity | ]].
  split; [lia | split; [simpl; lia | split; [lia | split; [simpl; lia | ]]]].
  split; [reflexivity | ].
  apply (rabin_karp_match_prints BIG_PRIME eq_refl eq_refl
           (bytes "ab") (bytes "xabyabcdefgh") 2);
    simpl; lia.
Defined.

(** ** The ten hashes of the Bloom filter *)

Lemma hash_i_unwrapped (i key : Z) :
  0 <= i < 10 -> 0 <= key < 2 ^ 63 ->
  hash_i i key = key mod H1PRIME + i * (key mod H2PRIME) + 1 + i * i.
Proof.
  intros Hi Hkey. unfold hash_i.
  rewrite !Z.rem_mod_nonneg by (unfold H1PRIME, H2PRIME; lia).
  pose proof (Z.mod_pos_bound key H1PRIME ltac:(unfold H1PRIME; lia)) as H1.
  pose proof (Z.mod_pos_bound key H2PRIME ltac:(unfold H2PRIME; lia)) as H2.
  unfold H1PRIME, H2PRIME in *.
  set (a := key mod 4189793) in *. set (b := key mod 3296731) in *.
  assert (Hib : 0 <= i * b <= 9 * 3296730) by nia.
  assert (Hii : 0 <= i * i <= 81) by nia.
  set (ib := i * b) in *. set (ii := i * i) in *.
  unfold wrap32 at 2. rewrite (Z.mod_small (ii + 2 ^ 31)) by lia.
  rewrite (wrap64_small ib) by lia.
  rewrite (wrap64_small (a + ib)) by lia.
  rewrite (wrap64_small (a + ib + 1)) by lia.
  replace (ii + 2 ^ 31 - 2 ^ 31) with ii by lia.
  rewrite (wrap64_small (a + ib + 1 + ii)) by lia.
  unfold wrap32. rewrite Z.mod_small by lia. lia.
Qed.

(** The ten hashes of one key are distinct: for a non-negative key,
    [hash_i i key] grows strictly with [i] over [0, 10). *)
Theorem hash_i_strictly_increasing (i j key : Z) :
  0 <= i -> i < j -> j < BLOOM_HASH_NUM -> 0 <= key < 2 ^ 63 ->
  hash_i i key < hash_i j key.
Proof.
  unfold BLOOM_HASH_NUM. intros Hi Hij Hj Hkey.
  rewrite !hash_i_unwrapped by lia.
  pose proof (Z.mod_pos_bound key H2PRIME ltac:(unfold H2PRIME; lia)).
  nia.
Qed.

Lemma hash_i_strictly_increasing_witness :
  0 <= 2 /\ 2 < 7 /\ 7 < BLOOM_HASH_NUM /\ 0 <= 1633771873 < 2 ^ 63 /\
  hash_i 2 1633771873 < hash_i 7 1633771873.
Proof.
  split; [lia | split; [lia | split; [reflexivity | split; [lia | ]]]].
  apply (hash_i_strictly_increasing 2 7 1633771873); [lia | lia | reflexivity | lia].
Defined.

(** Keys that are bound to collide: [hash_i] sees a key through its
    residues modulo [H1PRIME] and [H2PRIME] only, so two non-negative keys
    that differ by [H1PRIME * H2PRIME] have the same ten hashes. *)
Theorem hash_i_period (i key : Z) :
  0 <= i < BLOOM_HASH_NUM -> 0 <= key ->
  key + H1PRIME * H2PRIME < 2 ^ 63 ->
  hash_i i (key + H1PRIME * H2PRIME) = hash_i i key.
Proof.
  unfold BLOOM_HASH_NUM. intros Hi Hkey Hmax.
  assert (0 < H1PRIME * H2PRIME) by reflexivity.
  rewrite !hash_i_unwrapped by lia.
  rewrite (Z.mul_comm H1PRIME H2PRIME) at 1.
  rewrite (Z.mod_add key H2PRIME H1PRIME) by discriminate.
  rewrite (Z.mod_add key H1PRIME H2PRIME) by discriminate.
  reflexivity.
Qed.

Lemma hash_i_period_witness :
  0 <= 3 < BLOOM_HASH_NUM /\ 0 <= 42 /\ 42 + H1PRIME * H2PRIME < 2 ^ 63 /\
  hash_i 3 (42 + H1PRIME * H2PRIME) = hash_i 3 42.
Proof.
  split; [unfold BLOOM_HASH_NUM; lia | split; [lia | split; [reflexivity | ]]].
  apply (hash_i_period 3 42); [unfold BLOOM_HASH_NUM; lia | lia | reflexivity].
Defined.

(** ** [timediff] *)

(** [timediff] in microseconds.  For two normalized time stamps (seconds
    within 2^40 of zero, nanoseconds in [0, 10^9)), nothing overflows:
    the result times 1000 is within 1000 ns of the exact difference, the
    division truncating towards zero, and swapping the arguments negates
    the result. *)
Theorem timediff_microseconds (ts ts0 : timespec) :
  - 2 ^ 40 <= tv_sec ts <= 2 ^ 40 -> - 2 ^ 40 <= tv_sec ts0 <= 2 ^ 40 ->
  0 <= tv_nsec ts < 1000000000 -> 0 <= tv_nsec ts0 < 1000000000 ->
  - 1000 < 1000 * timediff ts ts0
           - ((tv_sec ts - tv_sec ts0) * 1000000000 + (tv_nsec ts - tv_nsec ts0))
         < 1000 /\
  timediff ts0 ts = - timediff ts ts0.
Proof.
  intros Hs Hs0 Hn Hn0.
  assert (Hval : forall a b : timespec,
            - 2 ^ 40 <= tv_sec a <= 2 ^ 40 -> - 2 ^ 40 <= tv_sec b <= 2 ^ 40 ->
            0 <= tv_nsec a < 1000000000 -> 0 <= tv_nsec b < 1000000000 ->
            timediff a b = (tv_sec a - tv_sec b) * 1000000
                           + Z.quot (tv_nsec a - tv_nsec b) 1000 /\
            - 1000000 < Z.quot (tv_nsec a - tv_nsec b) 1000 < 1000000).
  { intros a b Ha Hb Hna Hnb. unfold timediff.
    assert (Hq : - 1000000 < Z.quot (tv_nsec a - tv_nsec b) 1000 < 1000000).
    { pose proof (Z.quot_rem' (tv_nsec a - tv_nsec b) 1000) as Hqr.
      destruct (Z_le_gt_dec 0 (tv_nsec a - tv_nsec b)) as [Hpos | Hneg].
      - pose proof (Z.rem_bound_pos (tv_nsec a - tv_nsec b) 1000 Hpos ltac:(lia)). lia.
      - pose proof (Z.rem_bound_pos_neg (tv_nsec a - tv_nsec b) 1000 ltac:(lia) ltac:(lia)).
        lia. }
    rewrite (wrap64_small (tv_sec a - tv_sec b)) by lia.
    rewrite (wrap64_small (tv_nsec a - tv_nsec b)) by lia.
    rewrite (wrap64_small ((tv_sec a - tv_sec b) * 1000000)) by lia.
    rewrite wrap64_small by lia. split; [reflexivity | exact Hq]. }
  destruct (Hval ts ts0 Hs Hs0 Hn Hn0) as [-> Hq].
  destruct (Hval ts0 ts Hs0 Hs Hn0 Hn) as [-> _].
  split.
  - pose proof (Z.quot_rem' (tv_nsec ts - tv_nsec ts0) 1000) as Hqr.
    destruct (Z_le_gt_dec 0 (tv_nsec ts - tv_nsec ts0)) as [Hpos | Hneg].
    + pose proof (Z.rem_bound_pos (tv_nsec ts - tv_nsec ts0) 1000 Hpos ltac:(lia)). lia.
    + pose proof (Z.rem_bound_pos_neg (tv_nsec ts - tv_nsec ts0) 1000 ltac:(lia) ltac:(lia)).
      lia.
  - replace (tv_nsec ts0 - tv_nsec ts) with (- (tv_nsec ts - tv_nsec ts0)) by ring.
    rewrite Z.quot_opp_l by lia. ring.
Qed.

Lemma timediff_microseconds_witness :
  - 2 ^ 40 <= 12 <= 2 ^ 40 /\ - 2 ^ 40 <= 10 <= 2 ^ 40 /\
  0 <= 100 < 1000000000 /\ 0 <= 999999900 < 1000000000 /\
  timediff (Timespec 10 999999900) (Timespec 12 100)
  = - timediff (Timespec 12 100) (Timespec 10 999999900).
Proof.
  split; [lia | split; [lia | split; [lia | split; [lia | ]]]].
  apply (timediff_microseconds (Timespec 12 100) (Timespec 10 999999900));
    cbn [tv_sec tv_nsec]; lia.
Defined.

(** ** [bloom_print] *)

Lemma print_bytes_take (bs : list ascii) (cnt : nat) :
  forall n0 : nat,
    (n0 + cnt <= length bs)%nat ->
    print_bytes (Some bs) cnt (Z.of_nat n0) = Ok (map u8 (take cnt (drop n0 bs))).
Proof.
  induction cnt as [ | cnt IH]; intros n0 Hlen; [reflexivity | ].
  destruct (lookup_lt_is_Some_2 bs n0) as [c Hc]; [lia | ].
  cbn [print_bytes]. rewrite (read_lookup _ _ _ Hc). cbn [mbind result_bind].
  replace (Z.of_nat n0 + 1) with (Z.of_nat (S n0)) by lia.
  rewrite IH by lia. cbn [mbind result_bind].
  rewrite (drop_S _ _ _ Hc). reflexivity.
Qed.

(** [bloom_print] on a filter with an array: for a [count] that is a
    multiple of 8 it prints the first [min (bsz / 8) (count / 8)] bytes of
    the array, in order, provided the array holds that many. *)
Theorem bloom_print_bytes (f : bloom_filter) (bs : list ascii) (count : Z) :
  buf f = Some bs -> Z.rem count 8 = 0 -> 0 <= count -> 0 <= bsz f ->
  Z.min (bsz f / 8) (count / 8) <= Z.of_nat (length bs) ->
  bloom_print f count
  = Ok (map u8 (take (Z.to_nat (Z.min (bsz f / 8) (count / 8))) bs)).
Proof.
  intros Hbuf Hrem Hcount Hbsz Hlen. unfold bloom_print.
  rewrite Hrem, Hbuf. cbn [Z.eqb].
  rewrite !Z.shiftr_div_pow2 by lia. change (2 ^ 3) with 8.
  pose proof (print_bytes_take bs (Z.to_nat (Z.min (bsz f / 8) (count / 8))) 0) as Hp.
  change (Z.of_nat 0) with 0 in Hp. rewrite drop_0 in Hp.
  apply Hp. cbn [Nat.add]. lia.
Qed.

Lemma bloom_print_bytes_witness :
  buf (BloomFilter 16 (Some (bytes "abc"))) = Some (bytes "abc") /\
  Z.rem 160 8 = 0 /\ 0 <= 160 /\ 0 <= bsz (BloomFilter 16 (Some (bytes "abc"))) /\
  bloom_print (BloomFilter 16 (Some (bytes "abc"))) 160 = Ok [97; 98].
Proof.
  split; [reflexivity | split; [reflexivity | split; [lia | ]]].
  split; [apply Z.leb_le; reflexivity | ].
  apply (bloom_print_bytes (BloomFilter 16 (Some (bytes "abc"))) (bytes "abc") 160);
    [reflexivity | reflexivity | lia | apply Z.leb_le; reflexivity
    | apply Z.leb_le; reflexivity].
Defined.

(** [bloom_init] allocates no array: printing at least one byte of a
    filter as [bloom_init] returns it reads through a pointer that was
    never set. *)
Theorem bloom_print_after_init (size count : Z) :
  Z.rem size 8 = 0 -> Z.rem count 8 = 0 -> 8 <= size -> 8 <= count ->
  (f ← bloom_init size; bloom_print f count) = Err (OutOfBounds 0).
Proof.
  intros Hsize Hrem Hs Hc. unfold bloom_init, bloom_print.
  rewrite Hsize. cbn [Z.eqb mbind result_bind bsz buf]. rewrite Hrem. cbn [Z.eqb].
  rewrite !Z.shiftr_div_pow2 by lia. change (2 ^ 3) with 8.
  assert (1 <= size / 8) by (apply Z.div_le_lower_bound; lia).
  assert (1 <= count / 8) by (apply Z.div_le_lower_bound; lia).
  destruct (Z.to_nat (Z.min (size / 8) (count / 8))) eqn:Hn; [lia | ].
  reflexivity.
Qed.

Lemma bloom_print_after_init_witness :
  Z.rem 80 8 = 0 /\ Z.rem 160 8 = 0 /\ 8 <= 80 /\ 8 <= 160 /\
  (f ← bloom_init 80; bloom_print f 160) = Err (OutOfBounds 0).
Proof.
  split; [reflexivity | split; [reflexivity | split; [lia | split; [lia | ]]]].
  apply (bloom_print_after_init 80 160); [reflexivity | reflexivity | lia | lia].
Defined.

(** ** A run of the scan without hash equality *)

Lemma scan_loop_rolls_witness :
  exists st',
    scan_loop 0 BIG_PRIME (bytes "zz") (Z.of_nat 2) (bytes "abcde") 31354
              (base_exp BIG_PRIME (Z.of_nat 2)) 3 (Z.of_nat 0)
              (ScanState 0 0 (horner BIG_PRIME 0 (take 2 (drop 0 (bytes "abcde")))) [])
    = Ok st' /\
    ts_hash st' = horner BIG_PRIME 0 (take 2 (drop (0 + 3) (bytes "abcde"))) /\
    response st' = 0.
Proof.
  apply (scan_loop_rolls BIG_PRIME eq_refl eq_refl 0 (bytes "zz") (bytes "abcde")
           2 31354 3 0
           (ScanState 0 0 (horner BIG_PRIME 0 (take 2 (drop 0 (bytes "abcde")))) [])).
  - lia.
  - simpl. lia.
  - reflexivity.
  - intros j Hj.
    destruct j as [ | [ | [ | j]]]; [vm_compute; discriminate .. | lia].
Defined.

(** ** [main] and a chunk size of at least 1 *)





Section RabinKarpSafe.

Variable P : Z.
Hypothesis P_pos : 0 < P.
Hypothesis P_fits : 256 * P < 2 ^ 63.





End RabinKarpSafe.



